(** * dfx-proxy: a shallow embedding of [src/index.ts]

    The proxy maps canister identifiers to local ports.  Its command line
    is parsed by destructive removal of tokens from one mutable array
    ([parseArgs], [parseCanisterToPort]); name-keyed bindings are then
    resolved against a lookup file in [main]; every router rewrites the
    request target with [pathRewrite].

    Modelling conventions.
    - JavaScript strings are [string]s (the ASCII fragment of UTF-16).
    - JavaScript numbers produced by [parseInt] are integers, modelled as
      [Z]; [NaN] is [None].  ([-0] and [0] are both [0]; both are falsy.)
    - [undefined] is [None].
    - A plain object used as a record ([Record<string, Port>]) is an
      association list in property-creation order, see [Obj]; keys that
      name members of [Object.prototype] are outside the model.
    - The array [args] is one heap object shared by [main], [getConfig],
      [parseArgs] and [parseCanisterToPort]; its contents are the state of
      the monad [M].
    - [main] is modelled up to its return: what it prints, whether it
      exits and with which status, and the [mkApp] calls it makes.  The
      file system and [JSON.parse] are parameters; what express, morgan
      and the proxy middleware do once a router listens is not part of
      the model, except for [pathRewrite], which is the program's own. *)

From Stdlib Require Import String Ascii List ZArith NArith Lia Bool.
From Stdlib Require Import DecimalString Permutation.
Import ListNotations.

Open Scope string_scope.
Open Scope list_scope.
Open Scope Z_scope.

(** Concatenation of strings, as in a template literal. *)
Infix "+++" := String.append (right associativity, at level 60).

(** ** JavaScript primitives used by the program *)

Module Js.

(** [`${n}`] for an integer-valued number: every digit is printed.
    (JavaScript switches to exponent form from 1e21 on; ports of that
    size are outside the model.) *)
Definition numberToString (n : Z) : string :=
  NilZero.string_of_int (Z.to_int n).

(** Truthiness of a string: the empty string is falsy. *)
Definition truthyString (s : string) : bool :=
  negb (String.eqb s "").

(** Truthiness of a possibly undefined string. *)
Definition truthyOptString (o : option string) : bool :=
  match o with
  | Some s => truthyString s
  | None => false
  end.

(** Truthiness of a possibly undefined number. *)
Definition truthyOptNumber (o : option Z) : bool :=
  match o with
  | Some n => negb (n =? 0)
  | None => false
  end.

(** [s.split(sep)] for a one-character separator: every occurrence of
    the separator cuts, so the result has one more element than there are
    separators. *)
Fixpoint split (sep : ascii) (s : string) : list string :=
  match s with
  | EmptyString => [""]
  | String c s' =>
      if Ascii.eqb c sep then "" :: split sep s'
      else match split sep s' with
           | [] => [String c ""]
           | h :: t => String c h :: t
           end
  end.

(** [a.join(sep)], which is also what [`${a}`] does with [sep = ","]. *)
Definition join (sep : string) (a : list string) : string :=
  String.concat sep a.

(** *** [parseInt(s)] without a radix *)

(** The value is the exact integer the digits denote (JavaScript
    rounds it to a double above 2^53), and the white space skipped is
    the ASCII one (JavaScript also skips Unicode spaces, which an ASCII
    string does not hold). *)

Definition isWhiteSpace (c : ascii) : bool :=
  let n := nat_of_ascii c in
  ((9 <=? n) && (n <=? 13))%nat || (n =? 32)%nat.

Fixpoint trimStart (s : string) : string :=
  match s with
  | String c s' => if isWhiteSpace c then trimStart s' else s
  | EmptyString => s
  end.

Definition digitValue (radix : Z) (c : ascii) : option Z :=
  let n := Z.of_nat (nat_of_ascii c) in
  let d :=
    if (48 <=? n) && (n <=? 57) then n - 48
    else if (97 <=? n) && (n <=? 122) then n - 87
    else if (65 <=? n) && (n <=? 90) then n - 55
    else radix in
  if d <? radix then Some d else None.

Fixpoint digitsValue (radix : Z) (s : string) (acc : Z) : Z :=
  match s with
  | String c s' =>
      match digitValue radix c with
      | Some d => digitsValue radix s' (acc * radix + d)
      | None => acc
      end
  | EmptyString => acc
  end.

(** The longest prefix of radix digits; [None] when it is empty. *)
Definition leadingDigits (radix : Z) (s : string) : option Z :=
  match s with
  | String c _ =>
      match digitValue radix c with
      | Some _ => Some (digitsValue radix s 0)
      | None => None
      end
  | EmptyString => None
  end.

Definition parseInt (input : string) : option Z :=
  let s := trimStart input in
  let '(sign, s) :=
    match s with
    | String "-" r => (-1, r)
    | String "+" r => (1, r)
    | _ => (1, s)
    end in
  let '(radix, s) :=
    match s with
    | String "0" (String "x" r) => (16, r)
    | String "0" (String "X" r) => (16, r)
    | _ => (10, s)
    end in
  option_map (Z.mul sign) (leadingDigits radix s).

(** *** Arrays of strings *)

Fixpoint indexOfFrom (x : string) (a : list string) (i : Z) : Z :=
  match a with
  | [] => -1
  | y :: a' => if String.eqb y x then i else indexOfFrom x a' (i + 1)
  end.

(** [a.indexOf(x)]: the first index holding [x], or [-1]. *)
Definition indexOf (x : string) (a : list string) : Z :=
  indexOfFrom x a 0.

(** [a.splice(start, deleteCount)]: the removed elements and the array
    as it is left. *)
Definition splice (start deleteCount : Z) (a : list string)
  : list string * list string :=
  let len := Z.of_nat (List.length a) in
  let actualStart :=
    if start <? 0 then Z.max (len + start) 0 else Z.min start len in
  let actualDeleteCount :=
    Z.min (Z.max deleteCount 0) (len - actualStart) in
  let s := Z.to_nat actualStart in
  let d := Z.to_nat actualDeleteCount in
  (firstn d (skipn s a), firstn s a ++ skipn (s + d)%nat a).

(** [a.slice(start)] for a non-negative [start]. *)
Definition slice (start : nat) (a : list string) : list string :=
  skipn start a.

(** *** Plain objects used as string-keyed records *)

(** Own properties in creation order.  The members an object inherits
    from [Object.prototype] are not part of [Obj]: [get] reads own
    properties only, and [set] stores under every key.  In JavaScript a
    read of an absent key that names such a member ([toString],
    [constructor], [__proto__], ...) finds the member, and an assignment
    to [__proto__] stores nothing; [prototypeKeys] lists these keys, and
    the statements that depend on them say so. *)
Definition Obj (V : Type) : Type := list (string * V).

Fixpoint get {V} (k : string) (o : Obj V) : option V :=
  match o with
  | [] => None
  | (k', v) :: o' => if String.eqb k' k then Some v else get k o'
  end.

(** [o[k] = v]: an existing property keeps its place. *)
Fixpoint set {V} (k : string) (v : V) (o : Obj V) : Obj V :=
  match o with
  | [] => [(k, v)]
  | (k', v') :: o' =>
      if String.eqb k' k then (k, v) :: o' else (k', v') :: set k v o'
  end.

Definition isDigit (c : ascii) : bool :=
  let n := nat_of_ascii c in ((48 <=? n) && (n <=? 57))%nat.

Fixpoint decimalValue (s : string) (acc : N) : option N :=
  match s with
  | EmptyString => Some acc
  | String c s' =>
      if isDigit c
      then decimalValue s' (acc * 10 + (N.of_nat (nat_of_ascii c) - 48))%N
      else None
  end.

(** A key is an array index when it is the canonical decimal form of an
    integer below 2^32 - 1. *)
Definition arrayIndex (k : string) : option N :=
  match k with
  | EmptyString => None
  | String c r =>
      if Ascii.eqb c "0" && negb (String.eqb r "") then None
      else match decimalValue k 0 with
           | Some n => if (n <? 4294967295)%N then Some n else None
           | None => None
           end
  end.

Fixpoint insertIndex (n : N) (k : string) (l : list (N * string))
  : list (N * string) :=
  match l with
  | [] => [(n, k)]
  | (m, k') :: l' =>
      if (n <? m)%N then (n, k) :: l else (m, k') :: insertIndex n k l'
  end.

Fixpoint indexKeys (ks : list string) : list (N * string) :=
  match ks with
  | [] => []
  | k :: ks' =>
      match arrayIndex k with
      | Some n => insertIndex n k (indexKeys ks')
      | None => indexKeys ks'
      end
  end.

Definition isNamedKey (k : string) : bool :=
  match arrayIndex k with
  | Some _ => false
  | None => true
  end.

(** The order in which [for (k in o)] and [Object.keys(o)] visit the
    properties: array indices in ascending order, then the other keys in
    creation order. *)
Definition ownKeys {V} (o : Obj V) : list string :=
  let ks := map fst o in
  map snd (indexKeys ks) ++ filter isNamedKey ks.

End Js.

Import Js.

(** ** Values produced by [JSON.parse] *)

#[local] Set Warnings "-register-all".

Inductive json : Type :=
| JNull
| JBool (b : bool)
| JNumber (image : string)
| JString (s : string)
| JArray (elements : list json)
| JObject (members : list (string * json)).

(** A number is carried by its [Number::toString] image, so that [0] and
    [-0] are both ["0"], the only falsy numbers JSON can denote. *)
Definition truthy (v : json) : bool :=
  match v with
  | JNull => false
  | JBool b => b
  | JNumber image => negb (String.eqb image "0")
  | JString s => truthyString s
  | JArray _ => true
  | JObject _ => true
  end.

Definition truthyOpt (o : option json) : bool :=
  match o with
  | Some v => truthy v
  | None => false
  end.

(** [`${v}`], which is also the property key [v] is coerced to. *)
Fixpoint toString (v : json) : string :=
  match v with
  | JNull => "null"
  | JBool true => "true"
  | JBool false => "false"
  | JNumber image => image
  | JString s => s
  | JArray l =>
      join "," (map (fun e => match e with
                              | JNull => ""
                              | _ => toString e
                              end) l)
  | JObject _ => "[object Object]"
  end.

(** The object [JSON.parse] builds from the members of an object
    literal: a repeated key keeps its first place and its last value. *)
Definition objectOf (members : list (string * json)) : Obj json :=
  fold_left (fun o kv => set (fst kv) (snd kv) o) members [].

Definition indexString (i : nat) : string :=
  numberToString (Z.of_nat i).

(** The keys [for (k in v)] visits. *)
Definition forInKeys (v : json) : list string :=
  match v with
  | JObject ms => ownKeys (objectOf ms)
  | JArray l => map indexString (seq 0 (List.length l))
  | JString s => map indexString (seq 0 (String.length s))
  | _ => []
  end.

(** [v[k]] for a value that is not [null]. *)
Definition getMember (v : json) (k : string) : option json :=
  match v with
  | JObject ms => get k (objectOf ms)
  | JArray l =>
      match arrayIndex k with
      | Some n => nth_error l (N.to_nat n)
      | None => None
      end
  | JString s =>
      match arrayIndex k with
      | Some n =>
          match String.get (N.to_nat n) s with
          | Some c => Some (JString (String c ""))
          | None => None
          end
      | None => None
      end
  | _ => None
  end.

Inductive exn : Type :=
| FsError (message : string)
| SyntaxError (message : string)
| TypeError (message : string).

(** [x.local]: reading a property of [null] or [undefined] throws; the
    primitives and arrays have no such property. *)
Definition getLocal (x : option json) : exn + option json :=
  match x with
  | None =>
      inl (TypeError "Cannot read properties of undefined (reading 'local')")
  | Some JNull =>
      inl (TypeError "Cannot read properties of null (reading 'local')")
  | Some (JObject ms) => inr (get "local" (objectOf ms))
  | Some _ => inr None
  end.

(** ** The argument array as mutable state *)

(** A computation over the array [args]: it returns an error message or
    a value, and leaves the array in a new state.  A [return "<message>"]
    of the source is [fail]. *)
Definition M (A : Type) : Type :=
  list string -> (string + A) * list string.

Definition ret {A} (a : A) : M A :=
  fun args => (inr a, args).

Definition fail {A} (message : string) : M A :=
  fun args => (inl message, args).

Definition bind {A B} (m : M A) (k : A -> M B) : M B :=
  fun args =>
    match m args with
    | (inl message, args') => (inl message, args')
    | (inr a, args') => k a args'
    end.

Notation "x <- m ;; k" := (bind m (fun x => k))
  (at level 61, m at next level, right associativity).

Definition args_indexOf (x : string) : M Z :=
  fun args => (inr (indexOf x args), args).

Definition args_splice (start deleteCount : Z) : M (list string) :=
  fun args =>
    let '(removed, args') := splice start deleteCount args in
    (inr removed, args').

Definition args_length : M Z :=
  fun args => (inr (Z.of_nat (List.length args)), args).

Definition args_toString : M string :=
  fun args => (inr (join "," args), args).

(** ** The command-line parser *)

Definition Port : Type := Z.

Record Config : Type := mkConfig {
  replicaHost : option string;
  canisterIdToPort : Obj Port;
  canisterNameToPort : Obj Port;
  canisterNameToId : Obj json;
  canisterIdsFile : option string
}.

(** The loop of [parseCanisterToPort].  Every iteration removes the
    first occurrence of [param], so the length of the array bounds the
    number of iterations: [fuel] is never exhausted when it starts at
    that length (see [parseCanisterToPort_loop_exit]). *)
Fixpoint parseCanisterToPort_loop (fuel : nat) (param : string)
    (canisterToPort : Obj Port) : M (Obj Port) :=
  canisterToPortArgIndex <- args_indexOf param ;;
  if canisterToPortArgIndex =? -1 then ret canisterToPort
  else
    match fuel with
    | O => ret canisterToPort
    | S fuel' =>
        canisterToPortArgs <- args_splice canisterToPortArgIndex 2 ;;
        match canisterToPortArgs with
        | [_; arg] =>
            let tokens := split ":" arg in
            match tokens with
            | [canister; portStr] =>
                match parseInt portStr with
                | None =>
                    fail ("Could not parse port '" +++ portStr
                          +++ "' as number")
                | Some port =>
                    parseCanisterToPort_loop fuel' param
                      (set canister port canisterToPort)
                end
            | _ => fail ("Could not parse '" +++ arg +++ "'")
            end
        | _ => fail ("No value for " +++ param)
        end
    end.

Definition parseCanisterToPort (param : string) : M (Obj Port) :=
  fun args =>
    parseCanisterToPort_loop (List.length args) param [] args.

Definition parseCanisterIdToPort : M (Obj Port) :=
  parseCanisterToPort "--by-id".

Definition parseCanisterNameToPort : M (Obj Port) :=
  parseCanisterToPort "--by-name".

(** The message for tokens nothing consumed. *)
Definition leftoverMessage (args : list string) : string :=
  "Error: Don't know what to do with "
  +++ numberToString (Z.of_nat (List.length args))
  +++ " argument(s): " +++ join "," args.

Definition parseArgs : M Config :=
  replicaArgIndex <- args_indexOf "--replica-host" ;;
  replicaHost <-
    (if negb (replicaArgIndex =? -1) then
       replicaArgs <- args_splice replicaArgIndex 2 ;;
       match replicaArgs with
       | [_; value] => ret (Some value)
       | _ => fail "No value for --replica-host"
       end
     else ret None) ;;
  canisterIdsFileIndex <- args_indexOf "--canister-ids-file" ;;
  canisterIdsFile <-
    (if negb (canisterIdsFileIndex =? -1) then
       canisterIdsArgs <- args_splice canisterIdsFileIndex 2 ;;
       match canisterIdsArgs with
       | [_; value] => ret (Some value)
       | _ => fail "No value for --canister-ids-file"
       end
     else ret None) ;;
  canisterIdToPort <- parseCanisterIdToPort ;;
  canisterNameToPort <- parseCanisterNameToPort ;;
  argsLength <- args_length ;;
  if negb (argsLength =? 0) then
    args <- args_toString ;;
    fail ("Error: Don't know what to do with " +++ numberToString argsLength
          +++ " argument(s): " +++ args)
  else
    ret {| replicaHost := replicaHost;
           canisterIdsFile := canisterIdsFile;
           canisterIdToPort := canisterIdToPort;
           canisterNameToPort := canisterNameToPort;
           canisterNameToId := [] |}.

(** [getConfig] aliases its parameter and hands the same array on. *)
Definition getConfig : M Config := parseArgs.

(** ** The router's request-target rewrite *)

(** A possibly undefined string inside a concatenation. *)
Definition stringOf (o : option string) : string :=
  match o with
  | Some s => s
  | None => "undefined"
  end.

(** [pathRewrite] of [mkApp], closed over [canisterId].  The
    destructuring [[path, params] = pathAndParams.split("?")] keeps the
    first two pieces of the split. *)
Definition pathRewrite (canisterId : string) (pathAndParams : string)
  : string :=
  let queryParamsString := "?" in
  let pieces := split "?" pathAndParams in
  let path := nth_error pieces 0 in
  let params := nth_error pieces 1 in
  let queryParamsString :=
    if truthyOptString params
    then queryParamsString +++ stringOf params +++ "&"
    else queryParamsString in
  let queryParamsString :=
    queryParamsString +++ "canisterId=" +++ canisterId in
  stringOf path +++ queryParamsString.

(** ** The process: console output, exit, routers *)

(** The argument of one [mkApp] call: a router listening on
    [localhost:port] that forwards to [replicaHost] and rewrites every
    request target with [pathRewrite canisterId].  The call is recorded
    as an event; that [listen] can throw (a port out of range) is not
    modelled. *)
Record App : Type := mkApp {
  app_replicaHost : string;
  app_port : Port;
  app_canisterId : string
}.

Inductive event : Type :=
| ConsoleLog (line : string)
| ConsoleLogMappings (mappings : Obj Port)
| ConsoleLogError (e : exn)
| MkApp (app : App).

(** A run of the process: what it did, and either the status it exited
    with or the value it went on with. *)
Definition Proc (A : Type) : Type := list event * (Z + A).

Definition pret {A} (a : A) : Proc A := ([], inr a).

Definition pbind {A B} (m : Proc A) (k : A -> Proc B) : Proc B :=
  match m with
  | (trace, inl status) => (trace, inl status)
  | (trace, inr a) => let '(trace', r) := k a in (trace ++ trace', r)
  end.

Notation "x <~ m ;; k" := (pbind m (fun x => k))
  (at level 61, m at next level, right associativity).
Notation "m ;;; k" := (pbind m (fun _ => k))
  (at level 61, right associativity).

Definition console_log (line : string) : Proc unit :=
  ([ConsoleLog line], inr tt).

Definition console_log_mappings (o : Obj Port) : Proc unit :=
  ([ConsoleLogMappings o], inr tt).

Definition console_log_error (e : exn) : Proc unit :=
  ([ConsoleLogError e], inr tt).

Definition process_exit {A} (status : Z) : Proc A :=
  ([], inl status).

Definition startApp (app : App) : Proc unit :=
  ([MkApp app], inr tt).

(** A possibly undefined value as a property key or inside a template
    literal. *)
Definition keyOf (o : option json) : string :=
  match o with
  | Some v => toString v
  | None => "undefined"
  end.

(** A possibly undefined number inside a template literal. *)
Definition numberOf (o : option Z) : string :=
  match o with
  | Some n => numberToString n
  | None => "undefined"
  end.

(** The properties [for (k in o)] visits, each with its value. *)
Definition forIn {V} (o : Obj V) : list (string * V) :=
  flat_map (fun k => match get k o with
                     | Some v => [(k, v)]
                     | None => []
                     end) (ownKeys o).

Definition usage : string :=
  "USAGE: proxy --replica-host http://... [<canister-id>:<port>]".

Section Main.

(** The file system and the JSON parser are the environment. *)
Variable readFileSync : string -> exn + string.
Variable JSON_parse : string -> exn + json.

(** The body of the [try] block of [main]: every entry of the file with
    a truthy [local] member is recorded. *)
Definition readCanisterIds (canisterIdsFile : string)
    (canisterNameToId : Obj json) : exn + Obj json :=
  match readFileSync canisterIdsFile with
  | inl e => inl e
  | inr content =>
      match JSON_parse content with
      | inl e => inl e
      | inr values =>
          fold_left
            (fun acc canisterName =>
               match acc with
               | inl e => inl e
               | inr canisterNameToId =>
                   match getLocal (getMember values canisterName) with
                   | inl e => inl e
                   | inr localCanisterId =>
                       match localCanisterId with
                       | Some id =>
                           if truthy id
                           then inr (set canisterName id canisterNameToId)
                           else inr canisterNameToId
                       | None => inr canisterNameToId
                       end
                   end
               end)
            (forInKeys values) (inr canisterNameToId)
      end
  end.

(** One iteration of the loop over [canisterNameToPort]. *)
Definition resolveName (canisterNameToId : Obj json)
    (canisterIdToPort : Obj Port) (canisterName : string)
    (canisterPort : Port) : Proc (Obj Port) :=
  let canisterId := get canisterName canisterNameToId in
  if negb (truthyOpt canisterId) then
    console_log
      ("No canister ID for canister name '" +++ canisterName
       +++ "' when trying to proxy '" +++ canisterName
       +++ "' to port " +++ numberToString canisterPort) ;;;
    console_log usage ;;;
    process_exit 1
  else
    let canisterId := keyOf canisterId in
    if truthyOptNumber (get canisterId canisterIdToPort) then
      console_log
        ("Asking to forward canister '" +++ canisterName
         +++ "' (name) to port " +++ numberToString canisterPort
         +++ " but '" +++ canisterName +++ "' is '" +++ canisterId
         +++ "' (ID) and is already forwarded to port "
         +++ numberOf (get canisterId canisterIdToPort)) ;;;
      console_log usage ;;;
      process_exit 1
    else pret (set canisterId canisterPort canisterIdToPort).

(** The loop over [canisterNameToPort], lines 256 to 277. *)
Fixpoint resolveNames (canisterNameToId : Obj json)
    (names : list (string * Port)) (canisterIdToPort : Obj Port)
  : Proc (Obj Port) :=
  match names with
  | [] => pret canisterIdToPort
  | (canisterName, canisterPort) :: names' =>
      canisterIdToPort <~
        resolveName canisterNameToId canisterIdToPort
          canisterName canisterPort ;;
      resolveNames canisterNameToId names' canisterIdToPort
  end.

(** The loop that starts the routers, lines 283 to 289. *)
Fixpoint startApps (replicaHost : string)
    (bindings : list (string * Port)) : Proc unit :=
  match bindings with
  | [] => pret tt
  | (canisterId, port) :: bindings' =>
      console_log
        ("Forwarding " +++ numberToString port +++ " to " +++ replicaHost
         +++ "/?canisterId=" +++ canisterId) ;;;
      startApp {| app_replicaHost := replicaHost;
                  app_port := port;
                  app_canisterId := canisterId |} ;;;
      startApps replicaHost bindings'
  end.

Definition main (process_argv : list string) : Proc unit :=
  let args := slice 2 process_argv in
  if negb (indexOf "--help" args =? -1) then
    console_log usage ;;;
    process_exit 0
  else
    match fst (getConfig args) with
    | inl parsed =>
        console_log parsed ;;;
        console_log usage ;;;
        process_exit 1
    | inr parsed =>
        let canisterNameToId := canisterNameToId parsed in
        let canisterIdToPort := canisterIdToPort parsed in
        if (List.length (ownKeys canisterIdToPort) =? 0)%nat then
          console_log "No canisters to proxy" ;;;
          console_log usage ;;;
          process_exit 1
        else if negb (truthyOptString (replicaHost parsed)) then
          console_log "No replica to proxy to" ;;;
          console_log usage ;;;
          process_exit 1
        else
          canisterNameToId <~
            (if truthyOptString (canisterIdsFile parsed) then
               console_log "Canister ids file" ;;;
               match readCanisterIds (stringOf (canisterIdsFile parsed))
                       canisterNameToId with
               | inr canisterNameToId => pret canisterNameToId
               | inl e =>
                   console_log
                     ("Could not read canister IDs from file "
                      +++ stringOf (canisterIdsFile parsed)) ;;;
                   console_log_error e ;;;
                   console_log usage ;;;
                   process_exit 1
               end
             else pret canisterNameToId) ;;
          canisterIdToPort <~
            resolveNames canisterNameToId
              (forIn (canisterNameToPort parsed)) canisterIdToPort ;;
          console_log "Using the following mappings:" ;;;
          console_log_mappings canisterIdToPort ;;;
          startApps (stringOf (replicaHost parsed)) (forIn canisterIdToPort)
    end.

End Main.

(** The routers a trace shows being started. *)
Definition appsOf (trace : list event) : list App :=
  flat_map (fun e => match e with
                     | MkApp app => [app]
                     | _ => []
                     end) trace.

(** The routers a run started, when it did not exit. *)
Definition started (run : Proc unit) : option (list App) :=
  match run with
  | (_, inl _) => None
  | (trace, inr _) => Some (appsOf trace)
  end.

(** The status a run exited with, when it did. *)
Definition exited (run : Proc unit) : option Z :=
  match run with
  | (_, inl status) => Some status
  | (_, inr _) => None
  end.

(** * Relations and definitions the statements use *)

(** What the pair [indexOf]/[splice] does to the array, in one
    statement: nothing when the flag is absent; otherwise the first
    occurrence and its successor are cut out. *)
Inductive Cut (flag : string) (args : list string) : Prop :=
| CutAbsent :
    ~ In flag args -> indexOf flag args = -1 -> Cut flag args
| CutLast pre :
    args = pre ++ [flag] -> ~ In flag pre ->
    args_splice (indexOf flag args) 2 args = (inr [flag], pre) ->
    indexOf flag args <> -1 ->
    Cut flag args
| CutPair pre value post :
    args = pre ++ flag :: value :: post -> ~ In flag pre ->
    args_splice (indexOf flag args) 2 args
      = (inr [flag; value], pre ++ post) ->
    indexOf flag args <> -1 ->
    Cut flag args.

(** The runs of the loop, as a relation between the bindings so far,
    the array, and the outcome. *)
Inductive ParseRun (param : string) : Obj Port -> list string
                     -> (string + Obj Port) * list string -> Prop :=
| RunDone acc args :
    ~ In param args ->
    ParseRun param acc args (inr acc, args)
| RunNoValue acc pre :
    ~ In param pre ->
    ParseRun param acc (pre ++ [param])
      (inl ("No value for " +++ param), pre)
| RunBadValue acc pre value post :
    ~ In param pre ->
    List.length (split ":" value) <> 2%nat ->
    ParseRun param acc (pre ++ param :: value :: post)
      (inl ("Could not parse '" +++ value +++ "'"), pre ++ post)
| RunBadPort acc pre value post canister portStr :
    ~ In param pre ->
    split ":" value = [canister; portStr] ->
    parseInt portStr = None ->
    ParseRun param acc (pre ++ param :: value :: post)
      (inl ("Could not parse port '" +++ portStr +++ "' as number"),
       pre ++ post)
| RunBinding acc pre value post canister portStr port outcome :
    ~ In param pre ->
    split ":" value = [canister; portStr] ->
    parseInt portStr = Some port ->
    ParseRun param (set canister port acc) (pre ++ post) outcome ->
    ParseRun param acc (pre ++ param :: value :: post) outcome.

(** The two flags that [parseArgs] itself consumes. *)
Definition RH : string := "--replica-host".
Definition CF : string := "--canister-ids-file".

(** The pattern [parseArgs] applies to [--replica-host] and to
    [--canister-ids-file]: find the flag, cut it out with its value. *)
Definition takeFlag (flag message : string) : M (option string) :=
  index <- args_indexOf flag ;;
  if negb (index =? -1) then
    removed <- args_splice index 2 ;;
    match removed with
    | [_; value] => ret (Some value)
    | _ => fail message
    end
  else ret None.

(** The last step of [parseArgs]: nothing may be left in the array. *)
Definition checkLeftover (config : Config) : M Config :=
  argsLength <- args_length ;;
  if negb (argsLength =? 0) then
    args <- args_toString ;;
    fail ("Error: Don't know what to do with " +++ numberToString argsLength
          +++ " argument(s): " +++ args)
  else ret config.

(** What [takeFlag] does, by the place of the flag in the array. *)
Inductive Taken (flag message : string) (args : list string)
  : (string + option string) * list string -> Prop :=
| TakenAbsent :
    ~ In flag args -> Taken flag message args (inr None, args)
| TakenLast pre :
    args = pre ++ [flag] -> ~ In flag pre ->
    Taken flag message args (inl message, pre)
| TakenPair pre value post :
    args = pre ++ flag :: value :: post -> ~ In flag pre ->
    Taken flag message args (inr (Some value), pre ++ post).

(** The errors of a flag that ends the array. *)
Definition noHostValue : string := "No value for --replica-host".
Definition noFileValue : string := "No value for --canister-ids-file".

(** The runs of [parseArgs]: where it stops, with what, and what is
    left in the array. *)
Inductive ArgsRun (args : list string)
  : (string + Config) * list string -> Prop :=
| ArgsHostError e a1 :
    Taken RH noHostValue args (inl e, a1) ->
    ArgsRun args (inl e, a1)
| ArgsFileError host e a1 a2 :
    Taken RH noHostValue args (inr host, a1) ->
    Taken CF noFileValue a1 (inl e, a2) ->
    ArgsRun args (inl e, a2)
| ArgsIdError host file e a1 a2 a3 :
    Taken RH noHostValue args (inr host, a1) ->
    Taken CF noFileValue a1 (inr file, a2) ->
    ParseRun "--by-id" [] a2 (inl e, a3) ->
    ArgsRun args (inl e, a3)
| ArgsNameError host file ids e a1 a2 a3 a4 :
    Taken RH noHostValue args (inr host, a1) ->
    Taken CF noFileValue a1 (inr file, a2) ->
    ParseRun "--by-id" [] a2 (inr ids, a3) ->
    ParseRun "--by-name" [] a3 (inl e, a4) ->
    ArgsRun args (inl e, a4)
| ArgsLeftover host file ids names a1 a2 a3 a4 :
    Taken RH noHostValue args (inr host, a1) ->
    Taken CF noFileValue a1 (inr file, a2) ->
    ParseRun "--by-id" [] a2 (inr ids, a3) ->
    ParseRun "--by-name" [] a3 (inr names, a4) ->
    a4 <> [] ->
    ArgsRun args (inl (leftoverMessage a4), a4)
| ArgsParsed host file ids names a1 a2 a3 :
    Taken RH noHostValue args (inr host, a1) ->
    Taken CF noFileValue a1 (inr file, a2) ->
    ParseRun "--by-id" [] a2 (inr ids, a3) ->
    ParseRun "--by-name" [] a3 (inr names, []) ->
    ArgsRun args (inr {| replicaHost := host;
                         canisterIdsFile := file;
                         canisterIdToPort := ids;
                         canisterNameToPort := names;
                         canisterNameToId := [] |}, []).

(** The errors of the flags themselves. *)
Inductive FlagError : string -> Prop :=
| NoValueFor flag : FlagError ("No value for " +++ flag)
| BadValue value : FlagError ("Could not parse '" +++ value +++ "'")
| BadPort portStr :
    FlagError ("Could not parse port '" +++ portStr +++ "' as number").

(** The flag reads the next token as its value, whatever it is. *)
Definition takesValue (flag : string) : bool :=
  String.eqb flag RH || String.eqb flag CF.

Definition headIs (x : string) (l : list string) : bool :=
  match l with
  | y :: _ => String.eqb y x
  | [] => false
  end.

(** Some [--replica-host] token directly follows a [--replica-host] or
    a [--canister-ids-file] token, where it is read as a value. *)
Fixpoint hostAsValue (args : list string) : bool :=
  match args with
  | [] => false
  | flag :: rest =>
      (takesValue flag && headIs RH rest) || hostAsValue rest
  end.

(** The character occurs in the string. *)
Fixpoint contains (c : ascii) (s : string) : bool :=
  match s with
  | EmptyString => false
  | String c' s' => Ascii.eqb c' c || contains c s'
  end.

Fixpoint allDigits (s : string) : bool :=
  match s with
  | EmptyString => true
  | String c s' => isDigit c && allDigits s'
  end.

(** The claim's reading of the second segment, in its own words: a
    base-10 integer is an optional sign followed by decimal digits, and
    nothing else. *)
Definition isBase10Integer (s : string) : bool :=
  let digits :=
    match s with
    | String "-" r => r
    | String "+" r => r
    | _ => s
    end in
  negb (String.eqb digits "") && allDigits digits.

(** A lookup file that holds one entry, [foo], whose local identifier
    is [xyz]. *)
Definition idsFile : string := "canister_ids.json".
Definition idsText : string := "(the text of canister_ids.json)".

Definition fooIsXyz : json :=
  JObject [("foo", JObject [("local", JString "xyz")])].

Definition readIdsFile (path : string) : exn + string :=
  if String.eqb path idsFile then inr idsText
  else inl (FsError "ENOENT: no such file or directory").

Definition parseIdsText (text : string) : exn + json :=
  if String.eqb text idsText then inr fooIsXyz
  else inl (SyntaxError "Unexpected token").

(** ** The access log of a router *)

(** [color] of the logger of [mkApp]: the ANSI colour of a status. *)
Definition color (rc : Z) : Z :=
  if (200 <=? rc) && (rc <? 300) then 32
  else if (300 <=? rc) && (rc <? 400) then 34
  else if (400 <=? rc) && (rc <? 500) then 33
  else 35.

(** The escape character that opens an ANSI sequence. *)
Definition esc : string := String (ascii_of_nat 27) "".

(** The line the logger of [mkApp] prints for one request. *)
Definition logLine (canisterId : string) (port : Port) (statusCode : Z)
    (method originalUrl url : string) : string :=
  canisterId +++ " (" +++ numberToString port +++ ") "
  +++ esc +++ "[" +++ numberToString (color statusCode) +++ "m"
  +++ numberToString statusCode +++ esc +++ "[0m "
  +++ method +++ " " +++ originalUrl +++ " -> " +++ url +++ " ".

(** What a router prints once it listens. *)
Definition listeningLine (canisterId : string) (port : Port) : string :=
  "Canister " +++ canisterId +++ " is listening on http://localhost:"
  +++ numberToString port.

(** ** A single pass over the array *)

(** One pass from left to right over the array, the way the loop of
    [parseCanisterToPort] is meant to be read: a flag takes the token
    after it, any other token is left where it is, and the pass stops
    at the first flag that has no value or a value that does not
    parse.  What it returns with is the array as the loop leaves it. *)
Fixpoint scanCanisterToPort (param : string) (canisterToPort : Obj Port)
    (args : list string) : (string + Obj Port) * list string :=
  match args with
  | [] => (inr canisterToPort, [])
  | token :: rest =>
      if String.eqb token param then
        match rest with
        | [] => (inl ("No value for " +++ param), [])
        | arg :: rest' =>
            match split ":" arg with
            | [canister; portStr] =>
                match parseInt portStr with
                | None =>
                    (inl ("Could not parse port '" +++ portStr
                          +++ "' as number"), rest')
                | Some port =>
                    scanCanisterToPort param
                      (set canister port canisterToPort) rest'
                end
            | _ => (inl ("Could not parse '" +++ arg +++ "'"), rest')
            end
        end
      else
        let '(outcome, remaining) :=
          scanCanisterToPort param canisterToPort rest in
        (outcome, token :: remaining)
  end.

(** The number of occurrences of a character in a string. *)
Fixpoint countChar (c : ascii) (s : string) : nat :=
  match s with
  | EmptyString => 0%nat
  | String c' s' =>
      ((if Ascii.eqb c' c then 1 else 0) + countChar c s')%nat
  end.

(** ** The entries of the lookup file *)

(** The identifier an entry of the file gives to its name: the [local]
    member of an entry that is an object, when it is truthy. *)
Definition localOf (entry : option json) : option json :=
  match entry with
  | Some (JObject fields) =>
      match get "local" (objectOf fields) with
      | Some id => if truthy id then Some id else None
      | None => None
      end
  | _ => None
  end.

(** One iteration of the loop over the entries. *)
Definition recordEntry (values : json)
    (acc : exn + Obj json) (canisterName : string) : exn + Obj json :=
  match acc with
  | inl e => inl e
  | inr canisterNameToId =>
      match getLocal (getMember values canisterName) with
      | inl e => inl e
      | inr localCanisterId =>
          match localCanisterId with
          | Some id =>
              if truthy id
              then inr (set canisterName id canisterNameToId)
              else inr canisterNameToId
          | None => inr canisterNameToId
          end
      end
  end.

(** What reading a member of [null] throws. *)
Definition nullError : exn :=
  TypeError "Cannot read properties of null (reading 'local')".

(** ** Keys and characters the statements single out *)

(** The keys a plain object inherits from [Object.prototype]. *)
Definition prototypeKeys : list string :=
  ["__proto__"; "constructor"; "hasOwnProperty"; "isPrototypeOf";
   "propertyIsEnumerable"; "toLocaleString"; "toString"; "valueOf";
   "__defineGetter__"; "__defineSetter__"; "__lookupGetter__";
   "__lookupSetter__"].

(** A key that names no inherited member: reading it finds an own
    property or nothing. *)
Definition plainKey (k : string) : bool :=
  negb (existsb (String.eqb k) prototypeKeys).

(** Every character of the string is an ASCII character. *)
Fixpoint isAscii (s : string) : bool :=
  match s with
  | EmptyString => true
  | String c s' => (nat_of_ascii c <? 128)%nat && isAscii s'
  end.

Definition isHexDigit (c : ascii) : bool :=
  let n := nat_of_ascii c in
  (((48 <=? n) && (n <=? 57)) || ((97 <=? n) && (n <=? 102))
   || ((65 <=? n) && (n <=? 70)))%nat.

Definition afterSign (s : string) : string :=
  match s with
  | String "-" r => r
  | String "+" r => r
  | _ => s
  end.

Definition headSatisfies (p : ascii -> bool) (s : string) : bool :=
  match s with
  | String c _ => p c
  | EmptyString => false
  end.

(** The strings that start a number for [parseInt] without a radix, in
    words: after leading white space and one optional sign, either [0x]
    or [0X] followed by a hexadecimal digit, or else a decimal digit.
    What follows the digits does not matter. *)
Definition numberStart (s : string) : bool :=
  let s := afterSign (trimStart s) in
  match s with
  | String "0" (String "x" r) => headSatisfies isHexDigit r
  | String "0" (String "X" r) => headSatisfies isHexDigit r
  | _ => headSatisfies isDigit s
  end.

(** [parseInt] gave a number, not [NaN]. *)
Definition accepted (o : option Z) : bool :=
  match o with
  | Some _ => true
  | None => false
  end.

(** The radix [parseInt] chooses, and the digits it reads. *)
Definition radixOf (s : string) : Z * string :=
  match s with
  | String "0" (String "x" r) => (16, r)
  | String "0" (String "X" r) => (16, r)
  | _ => (10, s)
  end.



(** * Properties *)

(** ** The primitives and the parser on examples *)

Example split_two : split ":" "abc:8080" = ["abc"; "8080"].
Proof. reflexivity. Qed.

Example split_none : split ":" "" = [""].
Proof. reflexivity. Qed.

Example parseInt_plain : parseInt "8080" = Some 8080.
Proof. reflexivity. Qed.

Example parseInt_hex : parseInt "0x1F" = Some 31.
Proof. reflexivity. Qed.

Example parseInt_trailing : parseInt " -12px" = Some (-12).
Proof. reflexivity. Qed.

Example parseInt_nan : parseInt "port" = None.
Proof. reflexivity. Qed.

Example numberToString_neg : numberToString (-42) = "-42".
Proof. reflexivity. Qed.

Example numberToString_zero : numberToString 0 = "0".
Proof. reflexivity. Qed.

Example ownKeys_order :
  ownKeys [("b", 1); ("10", 2); ("a", 3); ("9", 4); ("01", 5)]
  = ["9"; "10"; "b"; "a"; "01"].
Proof. reflexivity. Qed.

Example splice_mid :
  splice 1 2 ["a"; "b"; "c"; "d"] = (["b"; "c"], ["a"; "d"]).
Proof. reflexivity. Qed.

Example splice_end :
  splice 1 2 ["a"; "b"] = (["b"], ["a"]).
Proof. reflexivity. Qed.

Example parseArgs_ok :
  parseArgs ["--by-id"; "abc:8080"; "--replica-host"; "http://h";
             "--by-name"; "foo:9090"]
  = (inr {| replicaHost := Some "http://h";
            canisterIdToPort := [("abc", 8080)];
            canisterNameToPort := [("foo", 9090)];
            canisterNameToId := [];
            canisterIdsFile := None |}, []).
Proof. reflexivity. Qed.

Example parseArgs_leftover_run :
  parseArgs ["x"; "--by-id"; "abc:8080"; "y,z"]
  = (inl "Error: Don't know what to do with 2 argument(s): x,y,z",
     ["x"; "y,z"]).
Proof. reflexivity. Qed.

Example pathRewrite_plain_run :
  pathRewrite "ryjl3-tyaaa" "/foo" = "/foo?canisterId=ryjl3-tyaaa".
Proof. reflexivity. Qed.

Example pathRewrite_empty_query_run :
  pathRewrite "ryjl3-tyaaa" "/foo?" = "/foo?canisterId=ryjl3-tyaaa".
Proof. reflexivity. Qed.

Example pathRewrite_query_run :
  pathRewrite "ryjl3-tyaaa" "/foo?bar=1"
  = "/foo?bar=1&canisterId=ryjl3-tyaaa".
Proof. reflexivity. Qed.

(** ** Arrays: [indexOf] and [splice] *)

Lemma indexOfFrom_range x a i :
  indexOfFrom x a i = -1 \/ i <= indexOfFrom x a i.
Proof.
  revert i; induction a as [|y a IH]; intros i; simpl.
  - now left.
  - destruct (String.eqb y x).
    + right; lia.
    + destruct (IH (i + 1)) as [H|H]; [now left | right; lia].
Qed.

Lemma indexOfFrom_absent x a i :
  0 <= i -> (indexOfFrom x a i = -1 <-> ~ In x a).
Proof.
  revert i; induction a as [|y a IH]; intros i Hi; simpl.
  - tauto.
  - destruct (String.eqb_spec y x) as [->|Hne].
    + split; [lia | intros H; exfalso; apply H; now left].
    + rewrite (IH (i + 1)) by lia. intuition congruence.
Qed.

Lemma indexOf_absent x a : indexOf x a = -1 <-> ~ In x a.
Proof. apply indexOfFrom_absent; lia. Qed.

Lemma indexOfFrom_app x pre post i :
  ~ In x pre ->
  indexOfFrom x (pre ++ x :: post) i = i + Z.of_nat (List.length pre).
Proof.
  revert i; induction pre as [|y pre IH]; intros i Hn; simpl.
  - rewrite String.eqb_refl. lia.
  - destruct (String.eqb_spec y x) as [->|Hne].
    + exfalso; apply Hn; now left.
    + rewrite IH by (intros H; apply Hn; now right). lia.
Qed.

(** The first occurrence of a token cuts the array in two. *)
Lemma indexOf_first x a :
  In x a ->
  exists pre post,
    a = pre ++ x :: post /\ ~ In x pre /\
    indexOf x a = Z.of_nat (List.length pre).
Proof.
  induction a as [|y a IH]; intros Hin; [easy|].
  destruct (String.eqb_spec y x) as [->|Hne].
  - exists [], a. repeat split; auto.
    unfold indexOf; simpl. now rewrite String.eqb_refl.
  - destruct Hin as [->|Hin]; [congruence|].
    destruct (IH Hin) as (pre & post & -> & Hn & _).
    exists (y :: pre), post. repeat split.
    + intros [H|H]; [congruence | tauto].
    + unfold indexOf.
      change (y :: pre ++ x :: post) with ((y :: pre) ++ x :: post).
      rewrite indexOfFrom_app; [lia|].
      intros [H|H]; [congruence | tauto].
Qed.

(** Removing two elements at the cut takes the token and, when there is
    one, the element after it. *)
Lemma splice_at (pre post : list string) x :
  splice (Z.of_nat (List.length pre)) 2 (pre ++ x :: post)
  = (x :: firstn 1 post, pre ++ skipn 1 post).
Proof.
  assert (E1 : skipn (List.length pre) (pre ++ x :: post) = x :: post).
  { rewrite skipn_app, skipn_all, Nat.sub_diag. reflexivity. }
  assert (E2 : firstn (List.length pre) (pre ++ x :: post) = pre).
  { rewrite firstn_app, firstn_all, Nat.sub_diag. apply app_nil_r. }
  assert (E3 : forall d, skipn (List.length pre + d) (pre ++ x :: post)
                         = skipn d (x :: post)).
  { intros d. rewrite skipn_app, skipn_all2 by lia.
    replace (List.length pre + d - List.length pre)%nat with d by lia.
    reflexivity. }
  unfold splice.
  rewrite length_app; simpl List.length.
  assert (Hs : (Z.of_nat (List.length pre) <? 0) = false)
    by (apply Z.ltb_ge; lia).
  rewrite Hs.
  replace (Z.min (Z.of_nat (List.length pre)) _)
    with (Z.of_nat (List.length pre)) by lia.
  rewrite Nat2Z.id, E1, E2, E3.
  destruct post as [|v post]; simpl List.length.
  - replace (Z.to_nat _) with 1%nat by lia. reflexivity.
  - replace (Z.to_nat _) with 2%nat by lia. reflexivity.
Qed.

Lemma cut_cases flag args : Cut flag args.
Proof.
  destruct (in_dec string_dec flag args) as [Hin|Hout].
  - destruct (indexOf_first flag args Hin) as (pre & post & E & Hn & Hi).
    assert (Hne : indexOf flag args <> -1) by lia.
    assert (Hs : args_splice (indexOf flag args) 2 args
                 = (inr (flag :: firstn 1 post), pre ++ skipn 1 post)).
    { unfold args_splice. rewrite Hi, E.
      now rewrite splice_at. }
    destruct post as [|value post].
    + apply (CutLast flag args pre); auto.
      simpl in Hs. now rewrite app_nil_r in Hs.
    + apply (CutPair flag args pre value post); auto.
  - apply CutAbsent; auto. now apply indexOf_absent.
Qed.

(** ** The loop of [parseCanisterToPort] *)

Section Loop.

Variable param : string.

Lemma loop_absent fuel acc args :
  ~ In param args ->
  parseCanisterToPort_loop fuel param acc args = (inr acc, args).
Proof.
  intros Hout. apply indexOf_absent in Hout.
  destruct fuel; simpl; unfold bind, args_indexOf; now rewrite Hout.
Qed.

Lemma loop_no_value fuel acc pre :
  ~ In param pre ->
  parseCanisterToPort_loop (S fuel) param acc (pre ++ [param])
  = (inl ("No value for " +++ param), pre).
Proof.
  intros Hpre.
  destruct (cut_cases param (pre ++ [param])) as [Hout _|pre' E Hn Hs Hi|
                                                   pre' v post E Hn Hs Hi].
  - exfalso. apply Hout, in_or_app. right; now left.
  - apply app_inj_tail in E as [<- _].
    cbn [parseCanisterToPort_loop]. unfold bind at 1, args_indexOf.
    apply Z.eqb_neq in Hi; rewrite Hi.
    unfold bind. now rewrite Hs.
  - exfalso.
    assert (Hin : In param (pre' ++ param :: v :: post))
      by (apply in_or_app; right; now left).
    assert (Hlen : List.length (pre ++ [param])
                   = List.length (pre' ++ param :: v :: post))
      by now rewrite E.
    assert (Hcnt : forall l, ~ In param l ->
                   indexOf param (l ++ [param]) = Z.of_nat (List.length l)).
    { intros l Hl. unfold indexOf. rewrite indexOfFrom_app by easy. lia. }
    pose proof (Hcnt pre Hpre) as H1.
    rewrite E in H1. unfold indexOf in H1.
    rewrite indexOfFrom_app in H1 by easy.
    rewrite !length_app in Hlen. simpl in Hlen. lia.
Qed.

(** One iteration on a flag that has a value: the value must split on
    [":"] into two pieces and the second must be accepted by [parseInt];
    then, and only then, the binding is recorded and the loop goes on
    with the array from which the flag and its value are gone. *)
Lemma loop_value fuel acc pre value post :
  ~ In param pre ->
  parseCanisterToPort_loop (S fuel) param acc (pre ++ param :: value :: post)
  = match split ":" value with
    | [canister; portStr] =>
        match parseInt portStr with
        | Some port =>
            parseCanisterToPort_loop fuel param
              (set canister port acc) (pre ++ post)
        | None =>
            (inl ("Could not parse port '" +++ portStr +++ "' as number"),
             pre ++ post)
        end
    | _ => (inl ("Could not parse '" +++ value +++ "'"), pre ++ post)
    end.
Proof.
  intros Hpre.
  assert (Hi : indexOf param (pre ++ param :: value :: post)
               = Z.of_nat (List.length pre)).
  { unfold indexOf. rewrite indexOfFrom_app by easy. lia. }
  cbn [parseCanisterToPort_loop]. unfold bind at 1, args_indexOf.
  rewrite Hi.
  assert (Hne : (Z.of_nat (List.length pre) =? -1) = false)
    by (apply Z.eqb_neq; lia).
  rewrite Hne.
  unfold bind at 1, args_splice. rewrite splice_at. cbn [firstn skipn].
  destruct (split ":" value) as [|canister [|portStr [|x tokens]]];
    try reflexivity.
  destruct (parseInt portStr); reflexivity.
Qed.

(** With fuel for every element of the array, the loop is one of these
    runs: it is never cut short. *)
Lemma loop_run fuel : forall acc args,
  (List.length args <= fuel)%nat ->
  ParseRun param acc args (parseCanisterToPort_loop fuel param acc args).
Proof.
  induction fuel as [|fuel IH]; intros acc args Hlen.
  - destruct args; [|simpl in Hlen; lia].
    rewrite loop_absent by easy. now constructor.
  - destruct (cut_cases param args) as [Hout _|pre E Hn _ _|
                                        pre v post E Hn _ _].
    + rewrite loop_absent by easy. now constructor.
    + subst args. rewrite loop_no_value by easy. now constructor.
    + subst args. rewrite loop_value by easy.
      destruct (split ":" v) as [|canister [|portStr [|x tokens]]] eqn:Es;
        try (apply RunBadValue; [easy | rewrite Es; simpl; lia]).
      destruct (parseInt portStr) as [port|] eqn:Ep.
      * eapply RunBinding; eauto.
        apply IH. rewrite length_app in *. simpl in Hlen. lia.
      * eapply RunBadPort; eauto.
Qed.

Lemma parseCanisterToPort_run args :
  ParseRun param [] args (parseCanisterToPort param args).
Proof. apply loop_run. lia. Qed.

(** A run that returns bindings has removed every occurrence of the
    flag: the loop left through its exit test. *)
Lemma run_exit acc args outcome :
  ParseRun param acc args outcome ->
  forall o, fst outcome = inr o -> ~ In param (snd outcome).
Proof.
  induction 1; simpl; intros o Ho; try discriminate; eauto.
Qed.

(** The outcome does not depend on the fuel, once there is enough. *)
Lemma loop_fuel fuel1 : forall fuel2 acc args,
  (List.length args <= fuel1)%nat -> (List.length args <= fuel2)%nat ->
  parseCanisterToPort_loop fuel1 param acc args
  = parseCanisterToPort_loop fuel2 param acc args.
Proof.
  induction fuel1 as [|fuel1 IH]; intros fuel2 acc args H1 H2.
  - destruct args; [|simpl in H1; lia].
    now rewrite !loop_absent.
  - destruct (cut_cases param args) as [Hout _|pre E Hn _ _|
                                        pre v post E Hn _ _].
    + now rewrite !loop_absent.
    + subst args. rewrite length_app in H2; simpl in H2.
      destruct fuel2; [lia|]. now rewrite !loop_no_value.
    + subst args. rewrite length_app in H1, H2; simpl in H1, H2.
      destruct fuel2; [lia|]. rewrite !loop_value by easy.
      destruct (split ":" v) as [|canister [|portStr [|x tokens]]];
        try reflexivity.
      destruct (parseInt portStr); [|reflexivity].
      apply IH; rewrite length_app; lia.
Qed.

(** [parseCanisterToPort] leaves its loop through the exit test: when
    it returns bindings, the flag is nowhere in the array any more. *)
Lemma parseCanisterToPort_exit args o final :
  parseCanisterToPort param args = (inr o, final) -> ~ In param final.
Proof.
  intros E. pose proof (parseCanisterToPort_run args) as Hrun.
  rewrite E in Hrun. apply (run_exit _ _ _ Hrun o eq_refl).
Qed.

End Loop.

(** ** Objects: keys stay distinct *)

Section Objects.

Context {V : Type}.

Lemma get_set_same k (v : V) o : get k (set k v o) = Some v.
Proof.
  induction o as [|[k' v'] o IH]; simpl.
  - now rewrite String.eqb_refl.
  - destruct (String.eqb k' k) eqn:E; simpl.
    + now rewrite String.eqb_refl.
    + now rewrite E.
Qed.

Lemma get_set_other k k' (v : V) o :
  k' <> k -> get k' (set k v o) = get k' o.
Proof.
  intros Hne. induction o as [|[k0 v0] o IH]; simpl.
  - destruct (String.eqb_spec k k'); congruence.
  - destruct (String.eqb_spec k0 k) as [->|Hk]; simpl.
    + destruct (String.eqb_spec k k'); congruence.
    + now rewrite IH.
Qed.

Lemma set_keys k (v : V) o k' :
  In k' (map fst (set k v o)) <-> k' = k \/ In k' (map fst o).
Proof.
  induction o as [|[k0 v0] o IH]; simpl.
  - intuition.
  - destruct (String.eqb_spec k0 k) as [->|Hk]; simpl.
    + intuition.
    + rewrite IH. intuition.
Qed.

Lemma set_NoDup k (v : V) o :
  NoDup (map fst o) -> NoDup (map fst (set k v o)).
Proof.
  induction o as [|[k0 v0] o IH]; simpl; intros Hnd.
  - constructor; [easy | constructor].
  - inversion Hnd as [|? ? Hout Hnd']; subst.
    destruct (String.eqb_spec k0 k) as [->|Hk]; simpl.
    + now constructor.
    + constructor; [|auto].
      rewrite set_keys. intros [H|H]; congruence.
Qed.

Lemma get_Some_key k (v : V) o : get k o = Some v -> In k (map fst o).
Proof.
  induction o as [|[k0 v0] o IH]; simpl; [discriminate|].
  destruct (String.eqb_spec k0 k) as [->|Hk]; auto.
Qed.

Lemma insertIndex_perm n k l :
  Permutation (map snd (insertIndex n k l)) (k :: map snd l).
Proof.
  induction l as [|[m k'] l IH]; simpl; [reflexivity|].
  destruct (n <? m)%N; simpl; [reflexivity|].
  rewrite IH. apply perm_swap.
Qed.

Lemma orderedKeys_perm (ks : list string) :
  Permutation (map snd (indexKeys ks) ++ filter isNamedKey ks) ks.
Proof.
  induction ks as [|k ks IH]; simpl; [reflexivity|].
  unfold isNamedKey at 1.
  destruct (arrayIndex k) as [n|].
  - rewrite insertIndex_perm. simpl. now constructor.
  - rewrite <- Permutation_middle. now constructor.
Qed.

(** [for (k in o)] visits the keys of [o], each once. *)
Lemma ownKeys_perm (o : Obj V) : Permutation (ownKeys o) (map fst o).
Proof. apply orderedKeys_perm. Qed.

Lemma ownKeys_NoDup (o : Obj V) :
  NoDup (map fst o) -> NoDup (ownKeys o).
Proof.
  intros H. eapply Permutation_NoDup; [|exact H].
  symmetry. apply ownKeys_perm.
Qed.

Lemma forIn_keys_incl (o : Obj V) (ks : list string) k :
  In k (map fst (flat_map (fun k => match get k o with
                                    | Some v => [(k, v)]
                                    | None => []
                                    end) ks)) -> In k ks.
Proof.
  induction ks as [|k0 ks IH]; simpl; [easy|].
  rewrite map_app, in_app_iff.
  intros [H|H]; [|auto].
  destruct (get k0 o); simpl in H; intuition.
Qed.

Lemma forIn_NoDup (o : Obj V) :
  NoDup (map fst o) -> NoDup (map fst (forIn o)).
Proof.
  intros H. apply ownKeys_NoDup in H. unfold forIn.
  induction H as [|k ks Hout Hnd IH]; simpl; [constructor|].
  rewrite map_app.
  destruct (get k o); simpl; [|exact IH].
  constructor; [|exact IH].
  intros Hin. apply Hout. eapply forIn_keys_incl; eauto.
Qed.

End Objects.

(** The bindings a run of the loop returns have distinct keys. *)
Lemma run_NoDup param acc args outcome :
  ParseRun param acc args outcome ->
  NoDup (map fst acc) ->
  forall o, fst outcome = inr o -> NoDup (map fst o).
Proof.
  induction 1; simpl; intros Hnd o Ho; try discriminate.
  - now injection Ho as <-.
  - apply IHParseRun; auto. now apply set_NoDup.
Qed.

Lemma parseCanisterToPort_NoDup param args o final :
  parseCanisterToPort param args = (inr o, final) -> NoDup (map fst o).
Proof.
  intros E. pose proof (parseCanisterToPort_run param args) as Hrun.
  eapply run_NoDup in Hrun; [exact Hrun|constructor|now rewrite E].
Qed.

(** ** [parseArgs], step by step *)

Lemma parseArgs_steps :
  parseArgs =
    (replicaHost <- takeFlag RH "No value for --replica-host" ;;
     canisterIdsFile <- takeFlag CF "No value for --canister-ids-file" ;;
     canisterIdToPort <- parseCanisterIdToPort ;;
     canisterNameToPort <- parseCanisterNameToPort ;;
     checkLeftover {| replicaHost := replicaHost;
                      canisterIdsFile := canisterIdsFile;
                      canisterIdToPort := canisterIdToPort;
                      canisterNameToPort := canisterNameToPort;
                      canisterNameToId := [] |}).
Proof. reflexivity. Qed.

Lemma checkLeftover_cases config args :
  checkLeftover config args
  = match args with
    | [] => (inr config, [])
    | _ => (inl (leftoverMessage args), args)
    end.
Proof.
  unfold checkLeftover, bind, args_length, args_toString, ret, fail,
    leftoverMessage.
  destruct args as [|a args]; [reflexivity|].
  destruct (Z.of_nat (List.length (a :: args)) =? 0) eqn:E.
  - apply Z.eqb_eq in E. simpl List.length in E. lia.
  - reflexivity.
Qed.

Lemma takeFlag_cases flag message args :
  Taken flag message args (takeFlag flag message args).
Proof.
  unfold takeFlag, bind at 1, args_indexOf.
  destruct (cut_cases flag args) as [Hout Hi|pre E Hn Hs Hi|
                                     pre v post E Hn Hs Hi].
  - rewrite Hi. simpl. now constructor.
  - apply Z.eqb_neq in Hi. rewrite Hi. cbn [negb].
    unfold bind. rewrite Hs. now apply TakenLast.
  - apply Z.eqb_neq in Hi. rewrite Hi. cbn [negb].
    unfold bind. rewrite Hs. now apply TakenPair.
Qed.

Lemma parseArgs_run args : ArgsRun args (parseArgs args).
Proof.
  rewrite parseArgs_steps. unfold bind at 1.
  pose proof (takeFlag_cases RH noHostValue args) as T1.
  fold noHostValue.
  destruct (takeFlag RH noHostValue args) as [[e|host] a1].
  { now apply ArgsHostError. }
  unfold bind at 1. fold noFileValue.
  pose proof (takeFlag_cases CF noFileValue a1) as T2.
  destruct (takeFlag CF noFileValue a1) as [[e|file] a2].
  { now apply ArgsFileError with host a1. }
  unfold bind at 1, parseCanisterIdToPort.
  pose proof (parseCanisterToPort_run "--by-id" a2) as R3.
  destruct (parseCanisterToPort "--by-id" a2) as [[e|ids] a3].
  { now apply ArgsIdError with host file a1 a2. }
  unfold bind at 1, parseCanisterNameToPort.
  pose proof (parseCanisterToPort_run "--by-name" a3) as R4.
  destruct (parseCanisterToPort "--by-name" a3) as [[e|names] a4].
  { now apply ArgsNameError with host file ids a1 a2 a3. }
  rewrite checkLeftover_cases.
  destruct a4 as [|t a4].
  - now apply ArgsParsed with a1 a2 a3.
  - now apply ArgsLeftover with host file ids names a1 a2 a3.
Qed.

Lemma run_error param acc args outcome :
  ParseRun param acc args outcome ->
  forall e, fst outcome = inl e -> FlagError e.
Proof.
  induction 1; simpl; intros e He; try discriminate;
    try (injection He as <-; constructor); auto.
Qed.

Lemma taken_error flag message args e final :
  Taken flag message args (inl e, final) -> e = message.
Proof. now inversion 1. Qed.

(** A token that is no flag of the loop and does not split in two on
    [":"] cannot be consumed by it: either the loop fails or the token
    is still there. *)
Lemma run_keeps param acc args outcome t :
  ParseRun param acc args outcome ->
  In t args -> t <> param -> List.length (split ":" t) <> 2%nat ->
  (exists e, fst outcome = inl e) \/ In t (snd outcome).
Proof.
  induction 1 as [acc args Hout|acc pre Hpre|acc pre value post Hpre Hlen|
                  acc pre value post c ps Hpre Es Ep|
                  acc pre value post c ps port outcome Hpre Es Ep Hrun IH];
    simpl; intros Hin Hne Hsplit; eauto.
  apply IH; auto.
  apply in_app_or in Hin as [Hin|[Hin|[Hin|Hin]]].
  - apply in_or_app; now left.
  - congruence.
  - subst t. rewrite Es in Hsplit. simpl in Hsplit. lia.
  - apply in_or_app; now right.
Qed.

(** ** The runs are determined by the array *)

(** The first occurrence of a token cuts an array in one way only. *)
Lemma first_occurrence_unique (x : string) pre1 : forall post1 pre2 post2,
  ~ In x pre1 -> ~ In x pre2 ->
  pre1 ++ x :: post1 = pre2 ++ x :: post2 ->
  pre1 = pre2 /\ post1 = post2.
Proof.
  induction pre1 as [|y pre1 IH]; intros post1 pre2 post2 H1 H2 E.
  - destruct pre2 as [|z pre2]; simpl in E.
    + injection E as <-. auto.
    + injection E as <- _. exfalso; apply H2; now left.
  - destruct pre2 as [|z pre2]; simpl in E.
    + injection E as -> _. exfalso; apply H1; now left.
    + injection E as <- E.
      destruct (IH post1 pre2 post2) as [<- <-]; auto.
      * intros H; apply H1; now right.
      * intros H; apply H2; now right.
Qed.

Ltac absurd_member :=
  match goal with
  | H : ~ In ?x (_ ++ ?x :: _) |- _ =>
      exfalso; apply H, in_or_app; right; now left
  end.

Ltac same_cut :=
  match goal with
  | E : ?p1 ++ ?x :: ?q1 = ?p2 ++ ?x :: ?q2,
    H1 : ~ In ?x ?p1, H2 : ~ In ?x ?p2 |- _ =>
      apply (first_occurrence_unique x p1 q1 p2 q2 H1 H2) in E;
      let E' := fresh "E" in destruct E as [-> E'];
      try discriminate E'; try (injection E' as -> ->)
  end.

Lemma taken_deterministic flag message args o1 o2 :
  Taken flag message args o1 -> Taken flag message args o2 -> o1 = o2.
Proof.
  intros T1 T2.
  inversion T1; inversion T2; subst; try reflexivity;
    try absurd_member; same_cut; reflexivity.
Qed.

Lemma run_deterministic param acc args o1 :
  ParseRun param acc args o1 ->
  forall o2, ParseRun param acc args o2 -> o1 = o2.
Proof.
  induction 1 as [acc args Hout|acc pre Hpre|acc pre value post Hpre Hlen|
                  acc pre value post c ps Hpre Es Ep|
                  acc pre value post c ps port outcome Hpre Es Ep Hrun IH];
    intros o2 H2; inversion H2; subst; try reflexivity;
    try absurd_member; same_cut; try reflexivity.
  all: try match goal with
         | Hl : List.length (split ":" ?v) <> 2%nat,
           Es : split ":" ?v = _ |- _ =>
             rewrite Es in Hl; simpl in Hl; congruence
         end.
  all: match goal with
       | Ea : split ":" ?v = _, Eb : split ":" ?v = _ |- _ =>
           rewrite Ea in Eb; injection Eb as <- <-
       end.
  all: try congruence.
  match goal with
  | Ea : parseInt ?p = Some _, Eb : parseInt ?p = Some _ |- _ =>
      rewrite Ea in Eb; injection Eb as <-
  end.
  now apply IH.
Qed.

(** ** Claim C10: the parser consumes the caller's array *)

Lemma taken_incl flag message args outcome :
  Taken flag message args outcome -> incl (snd outcome) args.
Proof.
  inversion 1; subst; simpl.
  - apply incl_refl.
  - apply incl_appl, incl_refl.
  - apply incl_app; [apply incl_appl, incl_refl|].
    apply incl_appr. do 2 apply incl_tl. apply incl_refl.
Qed.

Lemma run_incl param acc args outcome :
  ParseRun param acc args outcome -> incl (snd outcome) args.
Proof.
  assert (Hcut : forall pre (x y : string) post,
             incl (pre ++ post) (pre ++ x :: y :: post)).
  { intros. apply incl_app; [apply incl_appl, incl_refl|].
    apply incl_appr. do 2 apply incl_tl. apply incl_refl. }
  induction 1; simpl; auto using incl_refl.
  - apply incl_appl, incl_refl.
  - eapply incl_tran; [exact IHParseRun | apply Hcut].
Qed.

(** X3. Tokens are only ever removed from the array. *)
Lemma parseArgs_incl args : incl (snd (parseArgs args)) args.
Proof.
  pose proof (parseArgs_run args) as Hrun.
  destruct (parseArgs args) as [r final]; simpl.
  inversion Hrun as [e a1 T1|host e a1 a2 T1 T2|host file e a1 a2 a3 T1 T2 R3|
                     host file ids e a1 a2 a3 a4 T1 T2 R3 R4|
                     host file ids names a1 a2 a3 a4 T1 T2 R3 R4 Hne|
                     host file ids names a1 a2 a3 T1 T2 R3 R4]; subst;
    repeat match goal with
      | T : Taken _ _ _ _ |- _ => apply taken_incl in T; simpl in T
      | R : ParseRun _ _ _ _ |- _ => apply run_incl in R; simpl in R
      end;
    eauto using incl_tran, incl_nil_l.
Qed.










(** A run that stops at the leftover test has removed the pairs all the
    same: the tokens it reports are what is left of the array. *)
Example getConfig_consumes_args_leftover_run :
  getConfig ["--by-name"; "foo:9090"; "8080"; "--replica-host";
             "http://localhost:8000"; "--verbose"]
  = (inl "Error: Don't know what to do with 2 argument(s): 8080,--verbose",
     ["8080"; "--verbose"]).
Proof. reflexivity. Qed.

(** ** Claim C7: leftover tokens *)

(** Whenever [parseArgs] ends with tokens left in the array, it returns
    an error and no configuration: the message about the leftover
    tokens, unless one of the flags failed on its own value before the
    leftover test was reached. *)
Lemma parseArgs_tokens_left args r rest :
  parseArgs args = (r, rest) ->
  rest <> [] ->
  exists message,
    r = inl message /\
    (message = leftoverMessage rest \/ FlagError message).
Proof.
  intros E Hrest.
  pose proof (parseArgs_run args) as Hrun. rewrite E in Hrun.
  inversion Hrun as [e a1 T1|host e a1 a2 T1 T2|host file e a1 a2 a3 T1 T2 R3|
                     host file ids e a1 a2 a3 a4 T1 T2 R3 R4|
                     host file ids names a1 a2 a3 a4 T1 T2 R3 R4 Hne|
                     host file ids names a1 a2 a3 T1 T2 R3 R4]; subst.
  - exists e. split; [reflexivity|right].
    apply taken_error in T1 as ->. apply (NoValueFor "--replica-host").
  - exists e. split; [reflexivity|right].
    apply taken_error in T2 as ->. apply (NoValueFor "--canister-ids-file").
  - exists e. split; [reflexivity|right].
    eapply run_error; [exact R3|reflexivity].
  - exists e. split; [reflexivity|right].
    eapply run_error; [exact R4|reflexivity].
  - eexists. split; [reflexivity|left]. reflexivity.
  - congruence.
Qed.

(** C7. When the flags have been consumed with their values, first
    [--replica-host], then [--canister-ids-file], then every [--by-id]
    and every [--by-name], and at least one token remains in the array,
    [parseArgs] returns no configuration but the error that gives the
    number of the remaining tokens and the tokens themselves, joined by
    commas as [`${args}`] prints them. *)
Theorem unconsumed_tokens_rejected args host file ids names a1 a2 a3 rest :
  Taken "--replica-host" noHostValue args (inr host, a1) ->
  Taken "--canister-ids-file" noFileValue a1 (inr file, a2) ->
  ParseRun "--by-id" [] a2 (inr ids, a3) ->
  ParseRun "--by-name" [] a3 (inr names, rest) ->
  rest <> [] ->
  parseArgs args
  = (inl ("Error: Don't know what to do with "
          +++ numberToString (Z.of_nat (List.length rest))
          +++ " argument(s): " +++ join "," rest), rest).
Proof.
  intros T1 T2 R3 R4 Hrest.
  pose proof (parseArgs_run args) as Hrun.
  destruct (parseArgs args) as [r final].
  assert (Hsame : forall o1 o2 o3 o4 b1 b2 b3 b4,
             Taken RH noHostValue args (o1, b1) ->
             Taken CF noFileValue b1 (o2, b2) ->
             ParseRun "--by-id" [] b2 (o3, b3) ->
             ParseRun "--by-name" [] b3 (o4, b4) ->
             o1 = inr host /\ o2 = inr file /\ o3 = inr ids /\
             o4 = inr names /\ b4 = rest).
  { intros o1 o2 o3 o4 b1 b2 b3 b4 U1 U2 U3 U4.
    pose proof (taken_deterministic _ _ _ _ _ T1 U1) as E1.
    injection E1 as <- <-.
    pose proof (taken_deterministic _ _ _ _ _ T2 U2) as E2.
    injection E2 as <- <-.
    pose proof (run_deterministic _ _ _ _ R3 _ U3) as E3.
    injection E3 as <- <-.
    pose proof (run_deterministic _ _ _ _ R4 _ U4) as E4.
    injection E4 as <- <-. repeat split. }
  assert (Hhost : forall o b, Taken RH noHostValue args (o, b) ->
                              o = inr host /\ b = a1).
  { intros o b U. pose proof (taken_deterministic _ _ _ _ _ T1 U) as E.
    now injection E as <- <-. }
  assert (Hfile : forall o b, Taken CF noFileValue a1 (o, b) ->
                              o = inr file /\ b = a2).
  { intros o b U. pose proof (taken_deterministic _ _ _ _ _ T2 U) as E.
    now injection E as <- <-. }
  assert (Hids : forall o b, ParseRun "--by-id" [] a2 (o, b) ->
                             o = inr ids /\ b = a3).
  { intros o b U. pose proof (run_deterministic _ _ _ _ R3 _ U) as E.
    now injection E as <- <-. }
  inversion Hrun as [e b1 U1|h e b1 b2 U1 U2|h f e b1 b2 b3 U1 U2 U3|
                     h f i e b1 b2 b3 b4 U1 U2 U3 U4|
                     h f i n b1 b2 b3 b4 U1 U2 U3 U4 Hne|
                     h f i n b1 b2 b3 U1 U2 U3 U4]; subst.
  - apply Hhost in U1 as [? _]. discriminate.
  - apply Hhost in U1 as [_ ->]. apply Hfile in U2 as [? _]. discriminate.
  - apply Hhost in U1 as [_ ->]. apply Hfile in U2 as [_ ->].
    apply Hids in U3 as [? _]. discriminate.
  - destruct (Hsame _ _ _ _ _ _ _ _ U1 U2 U3 U4) as (_ & _ & _ & ? & _).
    discriminate.
  - destruct (Hsame _ _ _ _ _ _ _ _ U1 U2 U3 U4) as (_ & _ & _ & _ & ->).
    reflexivity.
  - destruct (Hsame _ _ _ _ _ _ _ _ U1 U2 U3 U4) as (_ & _ & _ & _ & <-).
    congruence.
Qed.

Lemma unconsumed_tokens_rejected_witness :
  parseArgs ["8080"; "--replica-host"; "http://localhost:8000";
             "--verbose"; "--by-id"; "ryjl3-tyaaa:4943"]
  = (inl "Error: Don't know what to do with 2 argument(s): 8080,--verbose",
     ["8080"; "--verbose"]).
Proof.
  apply (unconsumed_tokens_rejected
           ["8080"; "--replica-host"; "http://localhost:8000";
            "--verbose"; "--by-id"; "ryjl3-tyaaa:4943"]
           (Some "http://localhost:8000") None
           [("ryjl3-tyaaa", 4943)] []
           ["8080"; "--verbose"; "--by-id"; "ryjl3-tyaaa:4943"]
           ["8080"; "--verbose"; "--by-id"; "ryjl3-tyaaa:4943"]
           ["8080"; "--verbose"] ["8080"; "--verbose"]).
  - apply (TakenPair _ _ _ ["8080"] "http://localhost:8000"
             ["--verbose"; "--by-id"; "ryjl3-tyaaa:4943"]);
      [reflexivity | simpl; intuition discriminate].
  - apply TakenAbsent. simpl; intuition discriminate.
  - apply (RunBinding _ _ ["8080"; "--verbose"] "ryjl3-tyaaa:4943" []
             "ryjl3-tyaaa" "4943" 4943);
      [simpl; intuition discriminate | reflexivity | reflexivity |].
    apply RunDone. simpl; intuition discriminate.
  - apply RunDone. simpl; intuition discriminate.
  - discriminate.
Defined.

Lemma taken_absent flag message args outcome :
  Taken flag message args outcome -> ~ In flag args ->
  outcome = (inr None, args).
Proof.
  inversion 1 as [Hout|pre E Hpre|pre value post E Hpre]; subst;
    [reflexivity| |]; intros Hn; exfalso; apply Hn, in_or_app;
    right; now left.
Qed.

Lemma run_absent param acc args outcome :
  ParseRun param acc args outcome -> ~ In param args ->
  outcome = (inr acc, args).
Proof.
  inversion 1; subst; [reflexivity| | | |]; intros Hn; exfalso;
    apply Hn, in_or_app; right; now left.
Qed.

(** X4. An array that holds none of the four flags is reported whole. *)
Lemma parseArgs_unknown_only args :
  ~ In "--replica-host" args -> ~ In "--canister-ids-file" args ->
  ~ In "--by-id" args -> ~ In "--by-name" args ->
  args <> [] ->
  parseArgs args = (inl (leftoverMessage args), args).
Proof.
  intros H1 H2 H3 H4 Hne.
  pose proof (parseArgs_run args) as Hrun.
  destruct (parseArgs args) as [r final].
  inversion Hrun as [e a1 T1|host e a1 a2 T1 T2|host file e a1 a2 a3 T1 T2 R3|
                     host file ids e a1 a2 a3 a4 T1 T2 R3 R4|
                     host file ids names a1 a2 a3 a4 T1 T2 R3 R4 Hleft|
                     host file ids names a1 a2 a3 T1 T2 R3 R4]; subst.
  all: apply taken_absent in T1; [|exact H1]; try discriminate.
  all: injection T1 as -> ->.
  all: apply taken_absent in T2; [|exact H2]; try discriminate.
  all: injection T2 as -> ->.
  all: apply run_absent in R3; [|exact H3]; try discriminate.
  all: injection R3 as -> ->.
  all: apply run_absent in R4; [|exact H4]; try discriminate.
  - injection R4 as -> ->. reflexivity.
  - injection R4 as -> E. congruence.
Qed.

(** ** Claim C8: a repeated [--replica-host] *)

Lemma hostAsValue_value pre flag value post :
  hostAsValue (pre ++ flag :: value :: post) = false ->
  takesValue flag = true -> value <> RH.
Proof.
  induction pre as [|t pre IH]; simpl; intros H Hf.
  - rewrite Hf in H. simpl in H.
    apply orb_false_iff in H as [H _].
    now apply String.eqb_neq.
  - apply orb_false_iff in H as [_ H]. auto.
Qed.

Lemma hostAsValue_cut pre value post :
  hostAsValue (pre ++ RH :: value :: post) = false ->
  hostAsValue (pre ++ post) = false.
Proof.
  induction pre as [|t pre IH]; simpl; intros H.
  - apply orb_false_iff in H as [_ H].
    apply orb_false_iff in H as [_ H]. exact H.
  - apply orb_false_iff in H as [Ht H].
    rewrite (IH H), orb_false_r.
    destruct pre as [|p pre]; simpl in *.
    + rewrite andb_true_r in Ht. now rewrite Ht.
    + exact Ht.
Qed.

Lemma second_host_remains pre value post :
  ~ In RH pre -> value <> RH ->
  (2 <= count_occ string_dec (pre ++ RH :: value :: post) RH)%nat ->
  In RH (pre ++ post).
Proof.
  intros Hpre Hv Hc.
  rewrite count_occ_app in Hc. simpl in Hc.
  rewrite (proj1 (count_occ_not_In string_dec pre RH) Hpre) in Hc.
  destruct (string_dec RH RH) as [_|]; [|congruence].
  destruct (string_dec value RH) as [|_]; [congruence|].
  apply in_or_app; right.
  apply (count_occ_In string_dec). lia.
Qed.

Lemma host_not_binding : List.length (split ":" RH) <> 2%nat.
Proof. vm_compute. lia. Qed.

(** C8, as the parser has it.  When [--replica-host] occurs twice or
    more and no occurrence stands where a [--replica-host] or
    [--canister-ids-file] flag reads its value, parsing returns an
    error: the first occurrence is consumed with its value and any other
    one is still in the array when the leftover test is reached, unless
    a flag failed before. *)
Theorem parseArgs_rejects_second_host args :
  (2 <= count_occ string_dec args RH)%nat ->
  hostAsValue args = false ->
  exists message, fst (parseArgs args) = inl message.
Proof.
  intros Hcount Hvalue.
  assert (Hkeep : forall param acc a outcome,
             ParseRun param acc a outcome -> param <> RH -> In RH a ->
             (exists e, fst outcome = inl e) \/ In RH (snd outcome)).
  { intros param acc a outcome Hrun Hp Hin.
    eapply run_keeps; eauto using host_not_binding. }
  assert (Hin2 : forall host a1 file a2,
             Taken RH noHostValue args (inr host, a1) ->
             Taken CF noFileValue a1 (inr file, a2) -> In RH a2).
  { intros host a1 file a2 T1 T2.
    assert (H1 : In RH a1 /\ hostAsValue a1 = false).
    { inversion T1 as [Hout|pre E Hpre|pre value post E Hpre]; subst.
      - exfalso. apply (count_occ_not_In string_dec) in Hout. lia.
      - pose proof (hostAsValue_value pre RH value post Hvalue eq_refl).
        split; [now apply second_host_remains with value|].
        now apply hostAsValue_cut with value. }
    destruct H1 as [Hin1 Hv1].
    inversion T2 as [Hout|pre E Hpre|pre value post E Hpre]; subst; auto.
    pose proof (hostAsValue_value pre CF value post Hv1 eq_refl) as Hv.
    apply in_app_or in Hin1 as [H|[H|[H|H]]].
    - apply in_or_app; now left.
    - discriminate.
    - congruence.
    - apply in_or_app; now right. }
  pose proof (parseArgs_run args) as Hrun.
  destruct (parseArgs args) as [r final]; simpl.
  inversion Hrun as [e a1 T1|host e a1 a2 T1 T2|host file e a1 a2 a3 T1 T2 R3|
                     host file ids e a1 a2 a3 a4 T1 T2 R3 R4|
                     host file ids names a1 a2 a3 a4 T1 T2 R3 R4 Hne|
                     host file ids names a1 a2 a3 T1 T2 R3 R4]; subst; eauto.
  exfalso.
  pose proof (Hin2 _ _ _ _ T1 T2) as Hin.
  destruct (Hkeep _ _ _ _ R3) as [[e He]|Hin3]; auto; try discriminate.
  destruct (Hkeep _ _ _ _ R4) as [[e He]|Hin4]; auto; try discriminate.
Qed.

Lemma parseArgs_rejects_second_host_witness :
  exists message,
    fst (parseArgs ["--replica-host"; "http://a"; "--by-id"; "abc:8080";
                    "--replica-host"; "http://b"]) = inl message.
Proof.
  apply parseArgs_rejects_second_host; [vm_compute; lia | reflexivity].
Defined.

(** The claim fails when the second occurrence is where the first one
    reads its value: the parse succeeds and the upstream host is the
    token [--replica-host]. *)
Lemma second_host_accepted_as_value :
  ~ (forall args,
        (2 <= count_occ string_dec args "--replica-host")%nat ->
        exists message, fst (parseArgs args) = inl message).
Proof.
  intros H.
  destruct (H ["--replica-host"; "--replica-host"; "--by-id"; "abc:8080"])
    as [message Hm].
  - vm_compute. lia.
  - vm_compute in Hm. discriminate.
Qed.

Example second_host_accepted_run :
  parseArgs ["--replica-host"; "--replica-host"; "--by-id"; "abc:8080"]
  = (inr {| replicaHost := Some "--replica-host";
            canisterIdToPort := [("abc", 8080)];
            canisterNameToPort := [];
            canisterNameToId := [];
            canisterIdsFile := None |}, []).
Proof. reflexivity. Qed.

(** ** Claim C6: the value of [--by-id] and [--by-name] *)

Lemma digit10_accepted c : accepted (digitValue 10 c) = isDigit c.
Proof. destruct c as [[] [] [] [] [] [] [] []]; reflexivity. Qed.

Lemma digit16_accepted c : accepted (digitValue 16 c) = isHexDigit c.
Proof. destruct c as [[] [] [] [] [] [] [] []]; reflexivity. Qed.

Lemma leadingDigits_accepted radix s p :
  (forall c, accepted (digitValue radix c) = p c) ->
  accepted (leadingDigits radix s) = headSatisfies p s.
Proof.
  intros H. destruct s as [|c r]; [reflexivity|]. simpl.
  rewrite <- H. destruct (digitValue radix c); reflexivity.
Qed.

Lemma accepted_map f o : accepted (option_map f o) = accepted o.
Proof. now destruct o. Qed.

Lemma radixOf_accepted s :
  accepted (leadingDigits (fst (radixOf s)) (snd (radixOf s)))
  = match s with
    | String "0" (String "x" r) => headSatisfies isHexDigit r
    | String "0" (String "X" r) => headSatisfies isHexDigit r
    | _ => headSatisfies isDigit s
    end.
Proof.
  destruct s as [|c r]; [reflexivity|].
  destruct (ascii_dec c "0") as [->|Hc].
  - destruct r as [|c2 r2]; [reflexivity|].
    destruct (ascii_dec c2 "x") as [->|Hx];
      [apply (leadingDigits_accepted 16), digit16_accepted|].
    destruct (ascii_dec c2 "X") as [->|HX];
      [apply (leadingDigits_accepted 16), digit16_accepted|].
    assert (E : radixOf (String "0" (String c2 r2))
                = (10, String "0" (String c2 r2))).
    { destruct c2 as [[] [] [] [] [] [] [] []]; try reflexivity;
        congruence. }
    rewrite E.
    transitivity (headSatisfies isDigit (String "0" (String c2 r2)));
      [apply (leadingDigits_accepted 10), digit10_accepted|].
    destruct c2 as [[] [] [] [] [] [] [] []]; try reflexivity; congruence.
  - assert (E : radixOf (String c r) = (10, String c r)).
    { destruct c as [[] [] [] [] [] [] [] []]; try reflexivity;
        congruence. }
    rewrite E.
    transitivity (headSatisfies isDigit (String c r));
      [apply (leadingDigits_accepted 10), digit10_accepted|].
    destruct c as [[] [] [] [] [] [] [] []]; try reflexivity; congruence.
Qed.

(** [parseInt] gives a number exactly for the strings that start one. *)
Lemma parseInt_numberStart s : accepted (parseInt s) = numberStart s.
Proof.
  unfold parseInt, numberStart.
  assert (G : forall sign s0,
             accepted
               (let '(radix, s1) :=
                  match s0 with
                  | String "0" (String "x" r) => (16, r)
                  | String "0" (String "X" r) => (16, r)
                  | _ => (10, s0)
                  end in
                option_map (Z.mul sign) (leadingDigits radix s1))
             = accepted (leadingDigits (fst (radixOf s0))
                           (snd (radixOf s0)))).
  { intros sign s0. fold (radixOf s0). destruct (radixOf s0).
    apply accepted_map. }
  assert (H : forall t,
             accepted
               (let '(sign, s0) :=
                  match t with
                  | String "-" r => (-1, r)
                  | String "+" r => (1, r)
                  | _ => (1, t)
                  end in
                let '(radix, s1) :=
                  match s0 with
                  | String "0" (String "x" r) => (16, r)
                  | String "0" (String "X" r) => (16, r)
                  | _ => (10, s0)
                  end in
                option_map (Z.mul sign) (leadingDigits radix s1))
             = accepted (leadingDigits (fst (radixOf (afterSign t)))
                           (snd (radixOf (afterSign t))))).
  { intros t. destruct t as [|c r]; [reflexivity|].
    destruct c as [[] [] [] [] [] [] [] []];
      match goal with
      | |- _ = accepted (leadingDigits (fst (radixOf (afterSign ?t))) _) =>
          first [exact (G 1 t) | exact (G (-1) (afterSign t))
                | exact (G 1 (afterSign t))]
      end. }
  rewrite H. apply radixOf_accepted.
Qed.

(** C6, as the parser has it.  On the first occurrence of the flag, for
    a value of ASCII characters: unless splitting the value on [":"]
    gives exactly two segments, the parse fails with
    [Could not parse '<value>']; unless the second segment starts a
    number for [parseInt] (see [numberStart]: decimal, or hexadecimal
    after [0x], whatever follows the digits), it fails with
    [Could not parse port '<segment>' as number]; otherwise, and only
    then, the port [parseInt] gives is assigned to the first segment
    and parsing goes on: it ends with that assignment made when no
    other occurrence of the flag remains, and for every first segment
    but [__proto__] the assignment is a binding that can be read
    back. *)
Theorem flag_value_outcome param fuel acc pre value post :
  ~ In param pre ->
  isAscii value = true ->
  (List.length (split ":" value) <> 2%nat ->
   parseCanisterToPort_loop (S fuel) param acc
     (pre ++ param :: value :: post)
   = (inl ("Could not parse '" +++ value +++ "'"), pre ++ post))
  /\
  (forall canister portStr,
     split ":" value = [canister; portStr] ->
     numberStart portStr = false ->
     parseCanisterToPort_loop (S fuel) param acc
       (pre ++ param :: value :: post)
     = (inl ("Could not parse port '" +++ portStr +++ "' as number"),
        pre ++ post))
  /\
  (forall canister portStr,
     split ":" value = [canister; portStr] ->
     numberStart portStr = true ->
     exists port,
       parseInt portStr = Some port /\
       parseCanisterToPort_loop (S fuel) param acc
         (pre ++ param :: value :: post)
       = parseCanisterToPort_loop fuel param
           (set canister port acc) (pre ++ post) /\
       (~ In param post ->
        parseCanisterToPort_loop (S fuel) param acc
          (pre ++ param :: value :: post)
        = (inr (set canister port acc), pre ++ post)) /\
       (canister <> "__proto__" ->
        get canister (set canister port acc) = Some port)).
Proof.
  intros Hpre _.
  pose proof (loop_value param fuel acc pre value post Hpre) as Hstep.
  repeat split.
  - intros Hlen. rewrite Hstep.
    destruct (split ":" value) as [|canister [|portStr [|x tokens]]];
      try reflexivity.
    simpl in Hlen. congruence.
  - intros canister portStr Hsplit Hstart.
    rewrite Hstep, Hsplit.
    pose proof (parseInt_numberStart portStr) as Hacc.
    rewrite Hstart in Hacc.
    destruct (parseInt portStr); [discriminate | reflexivity].
  - intros canister portStr Hsplit Hstart.
    pose proof (parseInt_numberStart portStr) as Hacc.
    rewrite Hstart in Hacc.
    destruct (parseInt portStr) as [port|] eqn:Hport; [|discriminate].
    exists port. rewrite Hstep, Hsplit, Hport.
    repeat split.
    + intros Hpost. apply loop_absent.
      intros Hin. apply in_app_or in Hin as [Hin|Hin]; contradiction.
    + intros _. apply get_set_same.
Qed.

Lemma flag_value_outcome_witness :
  parseCanisterToPort_loop 3 "--by-id" [("abc", 8080)]
    ["--verbose"; "--by-id"; "xyz:0x10"; "extra"]
  = (inr [("abc", 8080); ("xyz", 16)], ["--verbose"; "extra"])
  /\ get "xyz" [("abc", 8080); ("xyz", 16)] = Some 16.
Proof.
  assert (Hpre : ~ In "--by-id" ["--verbose"])
    by (simpl; intuition discriminate).
  destruct (flag_value_outcome "--by-id" 2 [("abc", 8080)]
              ["--verbose"] "xyz:0x10" ["extra"] Hpre eq_refl)
    as (_ & _ & Hbinding).
  destruct (Hbinding "xyz" "0x10" eq_refl eq_refl)
    as (port & Hport & _ & Hrun & Hget).
  injection Hport as <-.
  split.
  - apply Hrun. simpl. intuition discriminate.
  - apply Hget. discriminate.
Defined.

(** The claim fails for a second segment [parseInt] accepts although it
    is no base-10 integer: [0x10] is read in base 16. *)
Lemma hexadecimal_port_accepted :
  ~ (forall value canister portStr,
        split ":" value = [canister; portStr] ->
        isBase10Integer portStr = false ->
        fst (parseCanisterToPort "--by-id" ["--by-id"; value])
        = inl ("Could not parse port '" +++ portStr +++ "' as number")).
Proof.
  intros H.
  specialize (H "abc:0x10" "abc" "0x10" eq_refl eq_refl).
  vm_compute in H. discriminate.
Qed.

Example hexadecimal_port_run :
  parseCanisterToPort "--by-id" ["--by-id"; "abc:0x10"]
  = (inr [("abc", 16)], []).
Proof. reflexivity. Qed.

Example trailing_text_port_run :
  parseCanisterToPort "--by-id" ["--by-id"; "abc:80px"]
  = (inr [("abc", 80)], []).
Proof. reflexivity. Qed.

(** ** Claims C4 and C5: an identifier that is already forwarded *)

(** C5. The test for an identifier that is already forwarded is the
    truthiness of its port.  When the name resolves to an identifier
    bound to port 0, the iteration raises no error, prints nothing, and
    overwrites the binding with the port of the name. *)
Theorem port_zero_overwritten canisterNameToId canisterIdToPort
    canisterName canisterPort id :
  get canisterName canisterNameToId = Some id ->
  truthy id = true ->
  get (toString id) canisterIdToPort = Some 0 ->
  resolveName canisterNameToId canisterIdToPort canisterName canisterPort
  = ([], inr (set (toString id) canisterPort canisterIdToPort))
  /\ get (toString id) (set (toString id) canisterPort canisterIdToPort)
     = Some canisterPort.
Proof.
  intros Hid Htruthy Hport. split; [|apply get_set_same].
  unfold resolveName, Port in *.
  rewrite Hid. simpl truthyOpt. rewrite Htruthy.
  cbn [negb keyOf]. now rewrite Hport.
Qed.

Lemma port_zero_overwritten_witness :
  resolveName [("foo", JString "xyz")] [("abc", 8080); ("xyz", 0)]
    "foo" 9090
  = ([], inr [("abc", 8080); ("xyz", 9090)])
  /\ get "xyz" [("abc", 8080); ("xyz", 9090)] = Some 9090.
Proof.
  exact (port_zero_overwritten [("foo", JString "xyz")]
           [("abc", 8080); ("xyz", 0)] "foo" 9090 (JString "xyz")
           eq_refl eq_refl eq_refl).
Defined.

(** C4, at the input where the code departs from it: [xyz] is bound to
    port 0 by [--by-id], the name [foo] resolves to [xyz], and the run
    neither fails nor reports the conflict: it goes on with [xyz]
    forwarded to the port of [foo]. *)
Theorem conflict_with_port_zero_undetected :
  main readIdsFile parseIdsText
    ["node"; "proxy"; "--replica-host"; "http://localhost:8000";
     "--canister-ids-file"; "canister_ids.json";
     "--by-id"; "xyz:0"; "--by-name"; "foo:9090"]
  = ([ConsoleLog "Canister ids file";
      ConsoleLog "Using the following mappings:";
      ConsoleLogMappings [("xyz", 9090)];
      ConsoleLog
        "Forwarding 9090 to http://localhost:8000/?canisterId=xyz";
      MkApp {| app_replicaHost := "http://localhost:8000";
               app_port := 9090;
               app_canisterId := "xyz" |}],
     inr tt).
Proof. reflexivity. Qed.

(** With any other port the conflict is reported, as C4 says. *)
Example conflict_detected_run :
  main readIdsFile parseIdsText
    ["node"; "proxy"; "--replica-host"; "http://localhost:8000";
     "--canister-ids-file"; "canister_ids.json";
     "--by-id"; "xyz:7"; "--by-name"; "foo:9090"]
  = ([ConsoleLog "Canister ids file";
      ConsoleLog
        ("Asking to forward canister 'foo' (name) to port 9090 but 'foo'"
         +++ " is 'xyz' (ID) and is already forwarded to port 7");
      ConsoleLog usage],
     inl 1).
Proof. reflexivity. Qed.

(** X15. A name whose identifier is already bound to a port other than 0
    stops the loop: the run prints the name, its port, the identifier
    and the port the identifier has, then the usage, and exits with
    status 1; the binding is not changed. *)
Lemma conflict_detected canisterNameToId canisterIdToPort
    canisterName canisterPort id port :
  get canisterName canisterNameToId = Some id ->
  truthy id = true ->
  get (toString id) canisterIdToPort = Some port ->
  port <> 0 ->
  resolveName canisterNameToId canisterIdToPort canisterName canisterPort
  = ([ConsoleLog
        ("Asking to forward canister '" +++ canisterName
         +++ "' (name) to port " +++ numberToString canisterPort
         +++ " but '" +++ canisterName +++ "' is '" +++ toString id
         +++ "' (ID) and is already forwarded to port "
         +++ numberToString port);
      ConsoleLog usage],
     inl 1).
Proof.
  intros Hid Htruthy Hport Hne.
  unfold resolveName, Port in *.
  rewrite Hid. simpl truthyOpt. rewrite Htruthy.
  cbn [negb keyOf]. rewrite Hport. cbn [truthyOptNumber numberOf].
  apply Z.eqb_neq in Hne. rewrite Hne. reflexivity.
Qed.

(** ** [--help] *)

(** X6. [--help] anywhere among the arguments prints the usage and exits
    with status 0, before anything is parsed. *)
Lemma main_help readFileSync JSON_parse node script args :
  In "--help" args ->
  main readFileSync JSON_parse (node :: script :: args)
  = ([ConsoleLog usage], inl 0)
  /\ exited (main readFileSync JSON_parse (node :: script :: args))
     = Some 0.
Proof.
  intros Hin. unfold main. cbn [slice skipn].
  destruct (indexOf "--help" args =? -1) eqn:E.
  - apply Z.eqb_eq, indexOf_absent in E. contradiction.
  - split; reflexivity.
Qed.

(** ** Claim C2: a name in place of an identifier *)

(** One iteration of the loop in [main] on a name whose identifier is
    not bound yet records the very binding [--by-id] records for that
    identifier and port (see [loop_value]): [set] of the
    identifier to the port. *)
Lemma name_bound_like_identifier canisterNameToId canisterIdToPort
    canisterName canisterPort id :
  get canisterName canisterNameToId = Some id ->
  truthy id = true ->
  get (toString id) canisterIdToPort = None ->
  resolveName canisterNameToId canisterIdToPort canisterName canisterPort
  = ([], inr (set (toString id) canisterPort canisterIdToPort)).
Proof.
  intros Hid Htruthy Hport.
  unfold resolveName, Port in *.
  rewrite Hid. simpl truthyOpt. rewrite Htruthy.
  cbn [negb keyOf]. now rewrite Hport.
Qed.

(** X8. The test for an empty set of bindings is made on what [--by-id]
    gave alone, whatever [--by-name] gave and whatever the lookup file
    holds. *)
Lemma names_alone_rejected readFileSync JSON_parse node script args
    parsed final :
  indexOf "--help" args = -1 ->
  getConfig args = (inr parsed, final) ->
  canisterIdToPort parsed = [] ->
  main readFileSync JSON_parse (node :: script :: args)
  = ([ConsoleLog "No canisters to proxy"; ConsoleLog usage], inl 1).
Proof.
  intros Hhelp Hparse Hids. unfold main. cbn [slice skipn].
  rewrite Hhelp, Hparse. cbn [Z.eqb negb fst]. rewrite Hids.
  reflexivity.
Qed.

(** C2, at the input where the code departs from it.  With [foo]
    resolving to [xyz] and nothing bound by [--by-id], the run with
    [--by-name foo:9090] exits with status 1 before any name is
    resolved, because the test for an empty set of bindings comes first;
    the run with [--by-id xyz:9090] in its place starts the router. *)
Theorem name_alone_rejected :
  main readIdsFile parseIdsText
    ["node"; "proxy"; "--replica-host"; "http://localhost:8000";
     "--canister-ids-file"; "canister_ids.json";
     "--by-name"; "foo:9090"]
  = ([ConsoleLog "No canisters to proxy"; ConsoleLog usage], inl 1)
  /\
  started
    (main readIdsFile parseIdsText
       ["node"; "proxy"; "--replica-host"; "http://localhost:8000";
        "--canister-ids-file"; "canister_ids.json";
        "--by-id"; "xyz:9090"])
  = Some [{| app_replicaHost := "http://localhost:8000";
             app_port := 9090;
             app_canisterId := "xyz" |}].
Proof. split; reflexivity. Qed.

(** ** Claim C1: the rewrite of the request target *)

Lemma split_whole c s : contains c s = false -> split c s = [s].
Proof.
  induction s as [|c' s IH]; simpl; [reflexivity|].
  intros H. apply orb_false_iff in H as [Hc Hs].
  rewrite Hc, (IH Hs). reflexivity.
Qed.

Lemma split_first c a b :
  contains c a = false -> split c (a +++ String c b) = a :: split c b.
Proof.
  induction a as [|c' a IH]; simpl.
  - intros _. now rewrite Ascii.eqb_refl.
  - intros H. apply orb_false_iff in H as [Hc Ha].
    rewrite Hc, (IH Ha). reflexivity.
Qed.

Lemma append_assoc (a b c : string) : (a +++ b) +++ c = a +++ b +++ c.
Proof. induction a as [|x a IH]; simpl; [reflexivity | now rewrite IH]. Qed.

(** X18. A target without a query string gets one. *)
Lemma pathRewrite_path canisterId path :
  contains "?" path = false ->
  pathRewrite canisterId path = path +++ "?canisterId=" +++ canisterId.
Proof.
  intros Hpath. unfold pathRewrite. now rewrite split_whole.
Qed.

(** X19. A target with one ["?"] and a query string after it keeps the
    query string, followed by ["&"] and the parameter. *)
Lemma pathRewrite_query canisterId path query :
  contains "?" path = false -> contains "?" query = false ->
  query <> "" ->
  pathRewrite canisterId (path +++ "?" +++ query)
  = path +++ "?" +++ query +++ "&canisterId=" +++ canisterId.
Proof.
  intros Hpath Hquery Hne. unfold pathRewrite.
  change ("?" +++ query) with (String "?" query).
  rewrite split_first, split_whole by assumption.
  apply String.eqb_neq in Hne.
  cbn [nth_error truthyOptString stringOf]. unfold truthyString.
  rewrite Hne. cbn [negb].
  f_equal. cbn [String.append]. f_equal.
  rewrite append_assoc. reflexivity.
Qed.

(** X20. What follows a second ["?"] never reaches the result. *)
Lemma pathRewrite_second_mark canisterId path query rest :
  contains "?" path = false -> contains "?" query = false ->
  pathRewrite canisterId (path +++ "?" +++ query +++ "?" +++ rest)
  = pathRewrite canisterId (path +++ "?" +++ query).
Proof.
  intros Hpath Hquery. unfold pathRewrite.
  change ("?" +++ query +++ "?" +++ rest)
    with (String "?" (query +++ String "?" rest)).
  change ("?" +++ query) with (String "?" query).
  rewrite !(split_first "?" path) by assumption.
  rewrite (split_first "?" query), (split_whole "?" query) by assumption.
  reflexivity.
Qed.

(** C1, at the input where the code departs from it: the target is cut
    at every ["?"] and only the first two pieces are kept, so what
    follows a second ["?"] is lost. *)
Theorem pathRewrite_drops_after_second_mark :
  pathRewrite "ryjl3-tyaaa" "/foo?next=/bar?x=1"
  = "/foo?next=/bar&canisterId=ryjl3-tyaaa"
  /\ pathRewrite "ryjl3-tyaaa" "/foo?next=/bar?x=1"
     <> "/foo?next=/bar?x=1&canisterId=ryjl3-tyaaa".
Proof. split; [reflexivity | discriminate]. Qed.

(** ** Claim C3: the bindings the routers are started from *)

Lemma started_appsOf trace (r : Z + unit) apps :
  started (trace, r) = Some apps -> r = inr tt /\ apps = appsOf trace.
Proof.
  destruct r as [status|[]]; simpl; [discriminate|].
  intros H. injection H as <-. auto.
Qed.

Lemma appsOf_app t1 t2 : appsOf (t1 ++ t2) = appsOf t1 ++ appsOf t2.
Proof. apply flat_map_app. Qed.

Lemma started_pbind {A} (m : Proc A) (k : A -> Proc unit) apps :
  started (pbind m k) = Some apps ->
  exists trace a apps',
    m = (trace, inr a) /\ started (k a) = Some apps' /\
    apps = appsOf trace ++ apps'.
Proof.
  destruct m as [trace [status|a]]; simpl; [discriminate|].
  destruct (k a) as [trace' [status|[]]] eqn:Ek; simpl; [discriminate|].
  intros H. injection H as <-.
  exists trace, a, (appsOf trace'). rewrite appsOf_app.
  split; [reflexivity|]. split; [now rewrite Ek | reflexivity].
Qed.

Lemma startApps_apps host bindings :
  started (startApps host bindings)
  = Some (map (fun b => {| app_replicaHost := host;
                           app_port := snd b;
                           app_canisterId := fst b |}) bindings).
Proof.
  induction bindings as [|[id port] bindings IH]; [reflexivity|].
  cbn [startApps].
  destruct (startApps host bindings) as [trace [status|[]]];
    simpl in IH; [discriminate|].
  injection IH as IH. simpl. now rewrite IH.
Qed.

Section Resolution.

Variable readFileSync : string -> exn + string.
Variable JSON_parse : string -> exn + json.

Lemma resolveName_result table ids name port trace ids' :
  resolveName table ids name port = (trace, inr ids') ->
  trace = [] /\ exists id, ids' = set id port ids.
Proof.
  unfold resolveName.
  destruct (negb (truthyOpt (get name table))); [discriminate|].
  destruct (truthyOptNumber _); [discriminate|].
  intros H. injection H as <- <-. eauto.
Qed.

Lemma resolveNames_result table names : forall ids trace ids',
  resolveNames table names ids = (trace, inr ids') ->
  NoDup (map fst ids) ->
  appsOf trace = [] /\ NoDup (map fst ids').
Proof.
  induction names as [|[name port] names IH]; intros ids trace ids' H Hnd.
  - injection H as <- <-. auto.
  - cbn [resolveNames] in H. unfold pbind in H.
    destruct (resolveName table ids name port) as [t1 [status|ids1]] eqn:E1;
      [discriminate|].
    apply resolveName_result in E1 as [-> [id ->]].
    destruct (resolveNames table names (set id port ids))
      as [t2 r2] eqn:E2.
    injection H as <- ->.
    eapply IH; [exact E2|]. now apply set_NoDup.
Qed.

(** C3, as the code has it.  Whenever startup succeeds, the routers that
    are started have pairwise distinct identifiers.  (Nothing in the
    code compares ports.) *)
Theorem started_identifiers_distinct process_argv apps :
  started (main readFileSync JSON_parse process_argv) = Some apps ->
  NoDup (map app_canisterId apps).
Proof.
  unfold main.
  destruct (negb (indexOf "--help" (slice 2 process_argv) =? -1));
    [discriminate|].
  destruct (getConfig (slice 2 process_argv)) as [[message|parsed] final]
    eqn:Eparse; cbn [fst]; [discriminate|].
  destruct (List.length (ownKeys (canisterIdToPort parsed)) =? 0)%nat;
    [discriminate|].
  destruct (negb (truthyOptString (replicaHost parsed))); [discriminate|].
  intros H.
  apply started_pbind in H as (t1 & table & apps1 & E1 & H & ->).
  apply started_pbind in H as (t2 & ids & apps2 & E2 & H & ->).
  apply started_pbind in H as (t3 & [] & apps3 & E3 & H & ->).
  apply started_pbind in H as (t4 & [] & apps4 & E4 & H & ->).
  rewrite startApps_apps in H. injection H as <-.
  injection E3 as <-. injection E4 as <-.
  assert (Hids : NoDup (map fst (canisterIdToPort parsed))).
  { pose proof (parseArgs_run (slice 2 process_argv)) as Hrun.
    unfold getConfig in Eparse. rewrite Eparse in Hrun.
    inversion Hrun as [| | | | |host file ids0 names a1 a2 a3 T1 T2 R3 R4];
      subst. simpl.
    eapply run_NoDup; [exact R3|constructor|reflexivity]. }
  apply resolveNames_result in E2 as [-> Hnd]; [|exact Hids].
  assert (Ht1 : appsOf t1 = []).
  { destruct (truthyOptString (canisterIdsFile parsed)).
    - unfold pbind in E1. simpl in E1.
      destruct (readCanisterIds _ _ _ _); simpl in E1;
        [discriminate|].
      now injection E1 as <- _.
    - now injection E1 as <- _. }
  rewrite Ht1. simpl.
  rewrite map_map. simpl.
  now apply forIn_NoDup.
Qed.

End Resolution.

Lemma started_identifiers_distinct_witness :
  NoDup (map app_canisterId
           [{| app_replicaHost := "http://localhost:8000";
               app_port := 8080; app_canisterId := "abc" |};
            {| app_replicaHost := "http://localhost:8000";
               app_port := 9090; app_canisterId := "xyz" |}]).
Proof.
  exact (started_identifiers_distinct readIdsFile parseIdsText
           ["node"; "proxy"; "--replica-host"; "http://localhost:8000";
            "--by-id"; "abc:8080"; "--by-name"; "foo:9090";
            "--canister-ids-file"; "canister_ids.json"] _ eq_refl).
Defined.

(** The claim fails for the ports: two identifiers bound to one port
    pass every check and two routers are started on it. *)
Lemma shared_port_accepted :
  ~ (forall readFileSync JSON_parse process_argv apps,
        started (main readFileSync JSON_parse process_argv) = Some apps ->
        NoDup (map app_port apps) /\ NoDup (map app_canisterId apps)).
Proof.
  intros H.
  destruct (H readIdsFile parseIdsText
              ["node"; "proxy"; "--replica-host"; "http://localhost:8000";
               "--by-id"; "abc:8080"; "--by-id"; "xyz:8080"] _ eq_refl)
    as [Hports _].
  simpl in Hports. inversion Hports as [|? ? Hout _]; subst.
  apply Hout. now left.
Qed.

Example shared_port_run :
  started
    (main readIdsFile parseIdsText
       ["node"; "proxy"; "--replica-host"; "http://localhost:8000";
        "--by-id"; "abc:8080"; "--by-id"; "xyz:8080"])
  = Some [{| app_replicaHost := "http://localhost:8000";
             app_port := 8080; app_canisterId := "abc" |};
          {| app_replicaHost := "http://localhost:8000";
             app_port := 8080; app_canisterId := "xyz" |}].
Proof. reflexivity. Qed.

(** ** Claim C9: the round trip of the specification *)

Section RoundTrip.

Variable readFileSync : string -> exn + string.
Variable JSON_parse : string -> exn + json.
Variables node script url path text : string.

Hypothesis url_given : url <> "".
Hypothesis path_given : path <> "".
Hypothesis url_not_help : url <> "--help".
Hypothesis path_not_help : path <> "--help".
Hypothesis file_read : readFileSync path = inr text.
Hypothesis file_parsed : JSON_parse text = inr fooIsXyz.

Lemma round_trip_parse :
  getConfig ["--replica-host"; url; "--by-id"; "abc:8080";
             "--by-name"; "foo:9090"; "--canister-ids-file"; path]
  = (inr {| replicaHost := Some url;
            canisterIdToPort := [("abc", 8080)];
            canisterNameToPort := [("foo", 9090)];
            canisterNameToId := [];
            canisterIdsFile := Some path |}, []).
Proof. reflexivity. Qed.

Lemma round_trip_table :
  readCanisterIds readFileSync JSON_parse path []
  = inr [("foo", JString "xyz")].
Proof.
  unfold readCanisterIds. rewrite file_read, file_parsed. reflexivity.
Qed.

(** C9. With a host and a path that are given (not empty, and not the
    token [--help]) and a lookup file that holds [{foo: {local: xyz}}],
    the run parses the four flags, resolves [foo], and starts exactly
    two routers, from the bindings [{abc: 8080, xyz: 9090}]. *)
Theorem round_trip :
  main readFileSync JSON_parse
    [node; script; "--replica-host"; url; "--by-id"; "abc:8080";
     "--by-name"; "foo:9090"; "--canister-ids-file"; path]
  = ([ConsoleLog "Canister ids file";
      ConsoleLog "Using the following mappings:";
      ConsoleLogMappings [("abc", 8080); ("xyz", 9090)];
      ConsoleLog ("Forwarding 8080 to " +++ url +++ "/?canisterId=abc");
      MkApp {| app_replicaHost := url;
               app_port := 8080; app_canisterId := "abc" |};
      ConsoleLog ("Forwarding 9090 to " +++ url +++ "/?canisterId=xyz");
      MkApp {| app_replicaHost := url;
               app_port := 9090; app_canisterId := "xyz" |}],
     inr tt).
Proof.
  unfold main. cbn [slice skipn].
  assert (Hhelp : indexOf "--help"
                    ["--replica-host"; url; "--by-id"; "abc:8080";
                     "--by-name"; "foo:9090"; "--canister-ids-file"; path]
                  = -1).
  { apply indexOf_absent. simpl.
    intuition (try discriminate; congruence). }
  rewrite Hhelp, round_trip_parse.
  cbn [Z.eqb negb fst canisterIdToPort canisterNameToPort canisterNameToId
       replicaHost canisterIdsFile truthyOptString stringOf].
  unfold truthyString.
  apply String.eqb_neq in url_given, path_given.
  rewrite url_given, path_given.
  cbn [negb]. rewrite round_trip_table.
  reflexivity.
Qed.

End RoundTrip.

Lemma round_trip_witness :
  main readIdsFile parseIdsText
    ["node"; "proxy"; "--replica-host"; "http://localhost:8000";
     "--by-id"; "abc:8080"; "--by-name"; "foo:9090";
     "--canister-ids-file"; "canister_ids.json"]
  = ([ConsoleLog "Canister ids file";
      ConsoleLog "Using the following mappings:";
      ConsoleLogMappings [("abc", 8080); ("xyz", 9090)];
      ConsoleLog "Forwarding 8080 to http://localhost:8000/?canisterId=abc";
      MkApp {| app_replicaHost := "http://localhost:8000";
               app_port := 8080; app_canisterId := "abc" |};
      ConsoleLog "Forwarding 9090 to http://localhost:8000/?canisterId=xyz";
      MkApp {| app_replicaHost := "http://localhost:8000";
               app_port := 9090; app_canisterId := "xyz" |}],
     inr tt).
Proof.
  apply (round_trip readIdsFile parseIdsText "node" "proxy"
           "http://localhost:8000" "canister_ids.json" idsText);
    solve [discriminate | reflexivity].
Defined.


(** * Further properties of the code *)

(** ** [parseCanisterToPort] is a single pass *)

Section SinglePass.

Variable param : string.

Lemma scan_absent acc args :
  ~ In param args -> scanCanisterToPort param acc args = (inr acc, args).
Proof.
  induction args as [|t args IH]; simpl; intros Hout; [reflexivity|].
  destruct (String.eqb_spec t param) as [->|Hne].
  - exfalso. apply Hout. now left.
  - rewrite IH; [reflexivity|]. intros H. apply Hout. now right.
Qed.

Lemma scan_app acc pre args :
  ~ In param pre ->
  scanCanisterToPort param acc (pre ++ args)
  = (fst (scanCanisterToPort param acc args),
     pre ++ snd (scanCanisterToPort param acc args)).
Proof.
  induction pre as [|t pre IH]; simpl; intros Hout.
  - now destruct (scanCanisterToPort param acc args).
  - destruct (String.eqb_spec t param) as [->|Hne].
    + exfalso. apply Hout. now left.
    + rewrite IH; [reflexivity|]. intros H. apply Hout. now right.
Qed.

Lemma scan_run n : forall acc args,
  (List.length args <= n)%nat ->
  ParseRun param acc args (scanCanisterToPort param acc args).
Proof.
  induction n as [|n IH]; intros acc args Hlen.
  - destruct args; [|simpl in Hlen; lia].
    apply RunDone. easy.
  - destruct (cut_cases param args) as [Hout _|pre E Hn _ _|
                                        pre v post E Hn _ _].
    + rewrite scan_absent by easy. now apply RunDone.
    + subst args. rewrite scan_app by easy.
      simpl. rewrite String.eqb_refl. simpl. rewrite app_nil_r.
      now apply RunNoValue.
    + subst args. rewrite scan_app by easy.
      cbn [scanCanisterToPort]. rewrite String.eqb_refl.
      destruct (split ":" v) as [|canister [|portStr [|x tokens]]] eqn:Es;
        try (cbn [fst snd]; apply RunBadValue;
             [easy | rewrite Es; simpl; lia]).
      destruct (parseInt portStr) as [port|] eqn:Ep; cbn [fst snd].
      * eapply RunBinding; eauto.
        rewrite <- scan_app by easy.
        apply IH. rewrite length_app in *. simpl in Hlen. lia.
      * eapply RunBadPort; eauto.
Qed.

(** X1. The loop of [parseCanisterToPort], which searches the array
    from its start and splices after every flag, gives what a single
    pass from left to right gives: the same bindings or the same first
    error, and the same tokens left in the array, in their order. *)
Theorem parseCanisterToPort_single_pass args :
  parseCanisterToPort param args = scanCanisterToPort param [] args.
Proof.
  apply (run_deterministic param [] args).
  - apply parseCanisterToPort_run.
  - apply (scan_run (List.length args)). lia.
Qed.

Lemma scan_compose_bounded n : forall args acc o rest more,
  (List.length args <= n)%nat ->
  scanCanisterToPort param acc args = (inr o, rest) ->
  scanCanisterToPort param acc (args ++ more)
  = (fst (scanCanisterToPort param o more),
     rest ++ snd (scanCanisterToPort param o more)).
Proof.
  induction n as [|n IH]; intros args acc o rest more Hlen Hscan.
  - destruct args; [|simpl in Hlen; lia].
    injection Hscan as <- <-. simpl.
    now destruct (scanCanisterToPort param acc more).
  - destruct args as [|t args].
    + injection Hscan as <- <-. simpl.
      now destruct (scanCanisterToPort param acc more).
    + simpl in Hlen. cbn [app scanCanisterToPort] in *.
      destruct (String.eqb t param).
      * destruct args as [|v args]; [discriminate|].
        cbn [app].
        destruct (split ":" v) as [|canister [|portStr [|x tokens]]];
          try discriminate.
        destruct (parseInt portStr) as [port|]; [|discriminate].
        apply IH; [simpl in Hlen; lia | exact Hscan].
      * destruct (scanCanisterToPort param acc args) as [r left'] eqn:E.
        injection Hscan as -> <-.
        rewrite (IH args acc o left' more); [reflexivity|lia|exact E].
Qed.

(** A pass over an array that parses, followed by more tokens, goes on
    with the bindings it has, and keeps the tokens it left. *)
Lemma scan_compose args acc o rest more :
  scanCanisterToPort param acc args = (inr o, rest) ->
  scanCanisterToPort param acc (args ++ more)
  = (fst (scanCanisterToPort param o more),
     rest ++ snd (scanCanisterToPort param o more)).
Proof. apply (scan_compose_bounded (List.length args)). lia. Qed.

(** X2. One more flag at the end of an array that parses, with a key
    other than [__proto__], adds its binding to the bindings of the
    array, over a binding the same key may have had, and leaves the
    same tokens. *)
Theorem parseCanisterToPort_one_more args o rest value canister portStr
    port :
  parseCanisterToPort param args = (inr o, rest) ->
  split ":" value = [canister; portStr] ->
  parseInt portStr = Some port ->
  canister <> "__proto__" ->
  parseCanisterToPort param (args ++ [param; value])
  = (inr (set canister port o), rest)
  /\ get canister (set canister port o) = Some port
  /\ (forall other, other <> canister ->
                    get other (set canister port o) = get other o).
Proof.
  intros Hparse Hsplit Hport _.
  rewrite parseCanisterToPort_single_pass in Hparse.
  split; [|split; [apply get_set_same | intros; now apply get_set_other]].
  rewrite parseCanisterToPort_single_pass.
  rewrite (scan_compose _ _ _ _ _ Hparse).
  cbn [scanCanisterToPort]. rewrite String.eqb_refl, Hsplit, Hport.
  cbn [fst snd]. now rewrite app_nil_r.
Qed.

End SinglePass.

Lemma parseCanisterToPort_one_more_witness :
  parseCanisterToPort "--by-id"
    (["--by-id"; "abc:8080"; "extra"] ++ ["--by-id"; "abc:9090"])
  = (inr (set "abc" 9090 [("abc", 8080)]), ["extra"])
  /\ get "abc" (set "abc" 9090 [("abc", 8080)]) = Some 9090
  /\ (forall other, other <> "abc" ->
                    get other (set "abc" 9090 [("abc", 8080)])
                    = get other [("abc", 8080)]).
Proof.
  apply (parseCanisterToPort_one_more "--by-id"
           ["--by-id"; "abc:8080"; "extra"] [("abc", 8080)] ["extra"]
           "abc:9090" "abc" "9090" 9090);
    solve [reflexivity | discriminate].
Defined.

(** ** [parseArgs]: what it takes and what it leaves *)

(** X5. A [--replica-host] that ends the array has no value: the parse
    fails, whatever else the array holds, and the flag is gone from the
    caller's array. *)
Theorem parseArgs_host_without_value pre :
  ~ In "--replica-host" pre ->
  parseArgs (pre ++ ["--replica-host"])
  = (inl "No value for --replica-host", pre).
Proof.
  intros Hpre.
  pose proof (parseArgs_run (pre ++ ["--replica-host"])) as Hrun.
  assert (T : Taken RH noHostValue (pre ++ ["--replica-host"])
                (inl noHostValue, pre)) by now apply TakenLast.
  destruct (parseArgs (pre ++ ["--replica-host"])) as [r final].
  inversion Hrun as [e a1 T1|host e a1 a2 T1 T2|host file e a1 a2 a3 T1 T2 R3|
                     host file ids e a1 a2 a3 a4 T1 T2 R3 R4|
                     host file ids names a1 a2 a3 a4 T1 T2 R3 R4 Hne|
                     host file ids names a1 a2 a3 T1 T2 R3 R4]; subst;
    pose proof (taken_deterministic _ _ _ _ _ T T1) as E;
    try discriminate E.
  now injection E as <- <-.
Qed.

Lemma parseArgs_host_without_value_witness :
  parseArgs (["--by-id"; "abc:8080"] ++ ["--replica-host"])
  = (inl "No value for --replica-host", ["--by-id"; "abc:8080"]).
Proof.
  apply parseArgs_host_without_value.
  simpl. intuition discriminate.
Defined.

(** The configuration [parseArgs] returns has the upstream host only
    from a [--replica-host] flag and the lookup file only from a
    [--canister-ids-file] flag; its table of names is always empty. *)
Lemma parsed_fields args parsed final :
  parseArgs args = (inr parsed, final) ->
  (~ In "--replica-host" args -> replicaHost parsed = None) /\
  (~ In "--canister-ids-file" args -> canisterIdsFile parsed = None) /\
  canisterNameToId parsed = [] /\
  NoDup (map fst (canisterIdToPort parsed)) /\
  NoDup (map fst (canisterNameToPort parsed)).
Proof.
  intros E. pose proof (parseArgs_run args) as Hrun. rewrite E in Hrun.
  inversion Hrun as [| | | | |host file ids names a1 a2 a3 T1 T2 R3 R4];
    subst; simpl.
  repeat split.
  - intros Hout. apply taken_absent in T1; [|exact Hout]. congruence.
  - intros Hout.
    assert (Hout1 : ~ In CF a1).
    { intros H. apply Hout. now apply (taken_incl _ _ _ _ T1). }
    apply taken_absent in T2; [|exact Hout1]. congruence.
  - eapply run_NoDup; [exact R3|constructor|reflexivity].
  - eapply run_NoDup; [exact R4|constructor|reflexivity].
Qed.

(** ** [main]: the ways out *)

Lemma ownKeys_empty {V} (o : Obj V) :
  (List.length (ownKeys o) =? 0)%nat = true <-> o = [].
Proof.
  rewrite Nat.eqb_eq, (Permutation_length (ownKeys_perm o)), length_map.
  destruct o; simpl; split; intros H; congruence.
Qed.

Lemma help_absent args :
  ~ In "--help" args -> negb (indexOf "--help" args =? -1) = false.
Proof.
  intros H. apply indexOf_absent in H. now rewrite H.
Qed.

Section Exits.

Variable readFileSync : string -> exn + string.
Variable JSON_parse : string -> exn + json.

(** X9. Without [--replica-host], an argument list that parses and binds
    at least one identifier is refused for its missing upstream. *)
Theorem main_no_replica process_argv parsed final :
  ~ In "--help" (slice 2 process_argv) ->
  ~ In "--replica-host" (slice 2 process_argv) ->
  getConfig (slice 2 process_argv) = (inr parsed, final) ->
  canisterIdToPort parsed <> [] ->
  main readFileSync JSON_parse process_argv
  = ([ConsoleLog "No replica to proxy to"; ConsoleLog usage], inl 1).
Proof.
  intros Hhelp Hhost Hparse Hids. unfold main.
  rewrite (help_absent _ Hhelp), Hparse. cbn [fst].
  destruct (List.length (ownKeys (canisterIdToPort parsed)) =? 0)%nat
    eqn:E; [apply ownKeys_empty in E; contradiction|].
  destruct (parsed_fields _ _ _ Hparse) as [H _].
  rewrite (H Hhost). reflexivity.
Qed.

(** X10. Without [--canister-ids-file] the run does not depend on the file
    system or on the JSON parser: nothing is read. *)
Theorem main_reads_nothing readFileSync' JSON_parse' process_argv :
  ~ In "--canister-ids-file" (slice 2 process_argv) ->
  main readFileSync JSON_parse process_argv
  = main readFileSync' JSON_parse' process_argv.
Proof.
  intros Hfile. unfold main.
  destruct (negb (indexOf "--help" (slice 2 process_argv) =? -1));
    [reflexivity|].
  destruct (getConfig (slice 2 process_argv)) as [[message|parsed] final]
    eqn:Hparse; cbn [fst]; [reflexivity|].
  destruct (parsed_fields _ _ _ Hparse) as (_ & H & _).
  rewrite (H Hfile). reflexivity.
Qed.

(** X11. A lookup file that cannot be read, or whose text is not JSON, is
    fatal: the run names the file, prints the cause and the usage, and
    exits with status 1. *)
Theorem main_unreadable_file process_argv parsed final path e :
  ~ In "--help" (slice 2 process_argv) ->
  getConfig (slice 2 process_argv) = (inr parsed, final) ->
  canisterIdToPort parsed <> [] ->
  truthyOptString (replicaHost parsed) = true ->
  canisterIdsFile parsed = Some path -> path <> "" ->
  (readFileSync path = inl e \/
   exists text, readFileSync path = inr text /\ JSON_parse text = inl e) ->
  main readFileSync JSON_parse process_argv
  = ([ConsoleLog "Canister ids file";
      ConsoleLog ("Could not read canister IDs from file " +++ path);
      ConsoleLogError e;
      ConsoleLog usage], inl 1).
Proof.
  intros Hhelp Hparse Hids Hhost Hfile Hpath Hread. unfold main.
  rewrite (help_absent _ Hhelp), Hparse. cbn [fst].
  destruct (List.length (ownKeys (canisterIdToPort parsed)) =? 0)%nat
    eqn:E; [apply ownKeys_empty in E; contradiction|].
  rewrite Hhost, Hfile. cbn [negb truthyOptString stringOf].
  unfold truthyString. apply String.eqb_neq in Hpath. rewrite Hpath.
  cbn [negb].
  assert (Hfail : readCanisterIds readFileSync JSON_parse path
                    (canisterNameToId parsed) = inl e).
  { unfold readCanisterIds.
    destruct Hread as [Hr|(text & Hr & Hp)]; rewrite Hr; [reflexivity|].
    now rewrite Hp. }
  rewrite Hfail. reflexivity.
Qed.

End Exits.

Lemma main_no_replica_witness :
  main readIdsFile parseIdsText ["node"; "proxy"; "--by-id"; "abc:8080"]
  = ([ConsoleLog "No replica to proxy to"; ConsoleLog usage], inl 1).
Proof.
  apply (main_no_replica readIdsFile parseIdsText
           ["node"; "proxy"; "--by-id"; "abc:8080"]
           {| replicaHost := None;
              canisterIdToPort := [("abc", 8080)];
              canisterNameToPort := [];
              canisterNameToId := [];
              canisterIdsFile := None |} []);
    solve [reflexivity | discriminate | simpl; intuition discriminate].
Defined.

Lemma main_reads_nothing_witness :
  main readIdsFile parseIdsText
    ["node"; "proxy"; "--replica-host"; "http://localhost:8000";
     "--by-id"; "abc:8080"]
  = main (fun _ => inl (FsError "EACCES")) (fun _ => inr JNull)
      ["node"; "proxy"; "--replica-host"; "http://localhost:8000";
       "--by-id"; "abc:8080"].
Proof.
  apply main_reads_nothing. simpl. intuition discriminate.
Defined.

Lemma main_unreadable_file_witness :
  main readIdsFile parseIdsText
    ["node"; "proxy"; "--replica-host"; "http://localhost:8000";
     "--by-id"; "abc:8080"; "--canister-ids-file"; "missing.json"]
  = ([ConsoleLog "Canister ids file";
      ConsoleLog "Could not read canister IDs from file missing.json";
      ConsoleLogError (FsError "ENOENT: no such file or directory");
      ConsoleLog usage], inl 1).
Proof.
  apply (main_unreadable_file readIdsFile parseIdsText
           ["node"; "proxy"; "--replica-host"; "http://localhost:8000";
            "--by-id"; "abc:8080"; "--canister-ids-file"; "missing.json"]
           {| replicaHost := Some "http://localhost:8000";
              canisterIdToPort := [("abc", 8080)];
              canisterNameToPort := [];
              canisterNameToId := [];
              canisterIdsFile := Some "missing.json" |} []
           "missing.json");
    solve [reflexivity | discriminate | simpl; intuition discriminate
          | left; reflexivity].
Defined.

(** ** The resolution of names *)

(** The three ways one iteration of the loop over the names ends. *)
Lemma resolveName_cases table ids name port :
  (truthyOpt (get name table) = false /\
   exists line,
     resolveName table ids name port
     = ([ConsoleLog line; ConsoleLog usage], inl 1))
  \/
  (exists id bound,
     get name table = Some id /\ truthy id = true /\
     get (toString id) ids = Some bound /\ bound <> 0 /\
     exists line,
       resolveName table ids name port
       = ([ConsoleLog line; ConsoleLog usage], inl 1))
  \/
  (exists id,
     get name table = Some id /\ truthy id = true /\
     truthyOptNumber (get (toString id) ids) = false /\
     resolveName table ids name port
     = ([], inr (set (toString id) port ids))).
Proof.
  unfold resolveName.
  destruct (get name table) as [id|] eqn:Eid; cbn [truthyOpt];
    [|left; split; [reflexivity|]; cbn [negb]; eexists; reflexivity].
  destruct (truthy id) eqn:Et; cbn [negb keyOf];
    [|left; split; [reflexivity|]; eexists; reflexivity].
  right.
  destruct (truthyOptNumber (get (toString id) ids)) eqn:En.
  - left. unfold truthyOptNumber in En.
    destruct (get (toString id) ids) as [bound|] eqn:Eb; [|discriminate].
    exists id, bound. repeat split; auto.
    + intros ->. discriminate.
    + eexists. reflexivity.
  - right. exists id. repeat split; auto.
Qed.

(** A run of the loop that fails has printed one message and the
    usage, and exits with status 1. *)
Lemma resolveNames_failure table names : forall ids trace status,
  resolveNames table names ids = (trace, inl status) ->
  status = 1 /\ exists line, trace = [ConsoleLog line; ConsoleLog usage].
Proof.
  induction names as [|[name port] names IH]; intros ids trace status H.
  - discriminate.
  - cbn [resolveNames] in H. unfold pbind in H.
    destruct (resolveName_cases table ids name port)
      as [[_ [line E]]|[(id & bound & _ & _ & _ & _ & line & E)|
                        (id & _ & _ & _ & E)]];
      rewrite E in H.
    + injection H as <- <-. eauto.
    + injection H as <- <-. eauto.
    + destruct (resolveNames table names (set (toString id) port ids))
        as [t r] eqn:E2.
      injection H as <- ->. eapply IH; eauto.
Qed.

(** X16. When the loop over the names succeeds, it has printed nothing;
    no binding of an identifier to a port other than 0 has been
    touched; and every name that names no inherited member and is bound
    to a port other than 0 has an entry in the table, whose identifier
    is now bound to that port. *)
Theorem resolveNames_success table names : forall ids trace ids',
  resolveNames table names ids = (trace, inr ids') ->
  trace = [] /\
  (forall id port, get id ids = Some port -> port <> 0 ->
                   get id ids' = Some port) /\
  (forall name port, In (name, port) names -> port <> 0 ->
     plainKey name = true ->
     exists id, get name table = Some id /\ truthy id = true /\
                get (toString id) ids' = Some port).
Proof.
  induction names as [|[name port] names IH]; intros ids trace ids' H.
  - injection H as <- <-. repeat split; auto. intros ? ? [].
  - cbn [resolveNames] in H. unfold pbind in H.
    destruct (resolveName_cases table ids name port)
      as [[_ [line E]]|[(id & bound & _ & _ & _ & _ & line & E)|
                        (id & Hid & Ht & Hfree & E)]];
      rewrite E in H; try discriminate.
    destruct (resolveNames table names (set (toString id) port ids))
      as [t r] eqn:E2.
    injection H as <- ->.
    destruct (IH _ _ _ E2) as (-> & Hkeep & Hnames).
    repeat split.
    + intros k p Hk Hp. apply Hkeep; [|exact Hp].
      rewrite get_set_other; [exact Hk|].
      intros ->. unfold Port in *. rewrite Hk in Hfree.
      simpl in Hfree. apply Z.eqb_neq in Hp. now rewrite Hp in Hfree.
    + intros name' port' [Heq|Hin] Hp Hplain.
      * injection Heq as <- <-. exists id. repeat split; auto.
        apply Hkeep; [apply get_set_same | exact Hp].
      * now apply Hnames.
Qed.

Lemma resolveNames_success_witness :
  ([] : list event) = [] /\
  (forall id port, get id [("abc", 8080)] = Some port -> port <> 0 ->
                   get id [("abc", 8080); ("xyz", 9090)] = Some port) /\
  (forall name port, In (name, port) [("foo", 9090)] -> port <> 0 ->
     plainKey name = true ->
     exists id, get name [("foo", JString "xyz")] = Some id /\
                truthy id = true /\
                get (toString id) [("abc", 8080); ("xyz", 9090)]
                = Some port).
Proof.
  exact (resolveNames_success [("foo", JString "xyz")] [("foo", 9090)]
           [("abc", 8080)] [] [("abc", 8080); ("xyz", 9090)] eq_refl).
Defined.

(** A name that is not in the table, or whose entry is falsy, stops
    the loop at once: the run prints which name and which port, then the
    usage, and exits with status 1. *)
Theorem resolveNames_unknown_name table name port names ids :
  truthyOpt (get name table) = false ->
  resolveNames table ((name, port) :: names) ids
  = ([ConsoleLog ("No canister ID for canister name '" +++ name
                  +++ "' when trying to proxy '" +++ name
                  +++ "' to port " +++ numberToString port);
      ConsoleLog usage], inl 1).
Proof.
  intros H. cbn [resolveNames]. unfold resolveName. rewrite H.
  reflexivity.
Qed.

Lemma resolveNames_unknown_name_witness :
  resolveNames [("foo", JString "xyz")] [("bar", 9090); ("foo", 7)]
    [("abc", 8080)]
  = ([ConsoleLog ("No canister ID for canister name 'bar' when trying"
                  +++ " to proxy 'bar' to port 9090");
      ConsoleLog usage], inl 1).
Proof.
  apply (resolveNames_unknown_name [("foo", JString "xyz")] "bar" 9090
           [("foo", 7)] [("abc", 8080)]).
  reflexivity.
Defined.

Lemma conflict_detected_witness :
  resolveName [("foo", JString "xyz")] [("xyz", 7)] "foo" 9090
  = ([ConsoleLog
        ("Asking to forward canister 'foo' (name) to port 9090 but 'foo'"
         +++ " is 'xyz' (ID) and is already forwarded to port 7");
      ConsoleLog usage],
     inl 1).
Proof.
  apply (conflict_detected [("foo", JString "xyz")] [("xyz", 7)]
           "foo" 9090 (JString "xyz") 7);
    solve [reflexivity | discriminate].
Defined.

(** ** [main]: names, exits and routers *)

Lemma startApps_returns host bindings :
  exists trace, startApps host bindings = (trace, inr tt).
Proof.
  induction bindings as [|[id port] bindings [trace IH]].
  - eexists. reflexivity.
  - cbn [startApps]. rewrite IH. eexists. reflexivity.
Qed.

Lemma get_key {V} k (o : Obj V) :
  In k (map fst o) -> exists v, get k o = Some v.
Proof.
  induction o as [|[k0 v0] o IH]; simpl; [easy|].
  destruct (String.eqb_spec k0 k) as [->|Hne]; [eauto|].
  intros [H|H]; [congruence | auto].
Qed.

Lemma forIn_nonempty {V} (o : Obj V) : o <> [] -> forIn o <> [].
Proof.
  intros Hne. unfold forIn.
  destruct (ownKeys o) as [|k ks] eqn:E.
  - apply (f_equal (@List.length string)) in E.
    simpl in E. apply Nat.eqb_eq, ownKeys_empty in E. contradiction.
  - assert (Hin : In k (map fst o)).
    { apply (Permutation_in _ (ownKeys_perm o)). rewrite E. now left. }
    destruct (get_key _ _ Hin) as [v Hv].
    simpl. rewrite Hv. discriminate.
Qed.

Lemma resolveNames_grows table names : forall ids trace ids',
  resolveNames table names ids = (trace, inr ids') ->
  ids <> [] -> ids' <> [].
Proof.
  induction names as [|[name port] names IH]; intros ids trace ids' H Hne.
  - now injection H as <- <-.
  - cbn [resolveNames] in H. unfold pbind in H.
    destruct (resolveName table ids name port) as [t1 [status|ids1]] eqn:E1;
      [discriminate|].
    apply resolveName_result in E1 as [-> [id ->]].
    destruct (resolveNames table names (set id port ids)) as [t2 r2] eqn:E2.
    injection H as <- ->.
    eapply IH; [exact E2|].
    destruct ids as [|[k v] ids]; simpl; [discriminate|].
    destruct (String.eqb k id); discriminate.
Qed.

Section Outcomes.

Variable readFileSync : string -> exn + string.
Variable JSON_parse : string -> exn + json.

(** X14. A [--by-name] binding without a [--canister-ids-file] is
    fatal: no name has an identifier, and the first name the loop
    visits, when it names no inherited member, is reported with its
    port. *)
Theorem main_name_without_file process_argv parsed final name port names :
  ~ In "--help" (slice 2 process_argv) ->
  ~ In "--canister-ids-file" (slice 2 process_argv) ->
  getConfig (slice 2 process_argv) = (inr parsed, final) ->
  canisterIdToPort parsed <> [] ->
  truthyOptString (replicaHost parsed) = true ->
  forIn (canisterNameToPort parsed) = (name, port) :: names ->
  plainKey name = true ->
  main readFileSync JSON_parse process_argv
  = ([ConsoleLog ("No canister ID for canister name '" +++ name
                  +++ "' when trying to proxy '" +++ name
                  +++ "' to port " +++ numberToString port);
      ConsoleLog usage], inl 1).
Proof.
  intros Hhelp Hfile Hparse Hids Hhost Hnames _. unfold main.
  rewrite (help_absent _ Hhelp), Hparse. cbn [fst].
  destruct (List.length (ownKeys (canisterIdToPort parsed)) =? 0)%nat
    eqn:E; [apply ownKeys_empty in E; contradiction|].
  destruct (parsed_fields _ _ _ Hparse) as (_ & Hf & Htable & _).
  rewrite Hhost, (Hf Hfile), Htable, Hnames. cbn [negb truthyOptString].
  unfold pbind at 1. cbn [pret].
  rewrite resolveNames_unknown_name by reflexivity.
  reflexivity.
Qed.

Lemma exited_after {A} trace (a : A) (k : A -> Proc unit) status :
  exited (pbind (trace, inr a) k) = Some status ->
  exited (k a) = Some status /\
  fst (pbind (trace, inr a) k) = trace ++ fst (k a).
Proof.
  unfold pbind. destruct (k a) as [t [st|[]]]; simpl; [|discriminate].
  intros H. now injection H as <-.
Qed.

(** The end of [main], from the loop over the names on: when it
    exits, it has printed one message and the usage, and the status
    is 1. *)
Lemma resolution_exit table names ids host status :
  exited (ids' <~ resolveNames table names ids ;;
          console_log "Using the following mappings:" ;;;
          console_log_mappings ids' ;;;
          startApps host (forIn ids')) = Some status ->
  status = 1 /\
  exists line,
    fst (ids' <~ resolveNames table names ids ;;
         console_log "Using the following mappings:" ;;;
         console_log_mappings ids' ;;;
         startApps host (forIn ids'))
    = [ConsoleLog line; ConsoleLog usage].
Proof.
  unfold pbind at 1 4.
  destruct (resolveNames table names ids) as [t [st|ids']] eqn:E.
  - apply resolveNames_failure in E as [-> [line ->]].
    intros H. injection H as <-. split; [reflexivity|].
    exists line. reflexivity.
  - destruct (startApps_returns host (forIn ids')) as [t' Hs].
    cbn [pbind console_log console_log_mappings]. rewrite Hs.
    discriminate.
Qed.

(** X7. Every way out of [main] is one of two: status 0 for [--help],
    status 1 otherwise; the usage is the last line printed; and no
    router has been started. *)
Theorem main_exit process_argv status :
  exited (main readFileSync JSON_parse process_argv) = Some status ->
  appsOf (fst (main readFileSync JSON_parse process_argv)) = [] /\
  last (fst (main readFileSync JSON_parse process_argv)) (ConsoleLog "")
  = ConsoleLog usage /\
  (status = 0 /\ In "--help" (slice 2 process_argv) \/
   status = 1 /\ ~ In "--help" (slice 2 process_argv)).
Proof.
  unfold main.
  destruct (indexOf "--help" (slice 2 process_argv) =? -1) eqn:Ehelp;
    cbn [negb].
  2:{ intros H. injection H as <-. repeat split. left. split; auto.
      destruct (in_dec string_dec "--help" (slice 2 process_argv))
        as [Hin|Hout]; [exact Hin|].
      apply indexOf_absent in Hout. rewrite Hout in Ehelp. discriminate. }
  assert (Hout : ~ In "--help" (slice 2 process_argv))
    by now apply indexOf_absent, Z.eqb_eq.
  destruct (getConfig (slice 2 process_argv)) as [[message|parsed] final];
    cbn [fst].
  { intros H. injection H as <-. repeat split. right. auto. }
  destruct (List.length (ownKeys (canisterIdToPort parsed)) =? 0)%nat.
  { intros H. injection H as <-. repeat split. right. auto. }
  destruct (negb (truthyOptString (replicaHost parsed))).
  { intros H. injection H as <-. repeat split. right. auto. }
  destruct (truthyOptString (canisterIdsFile parsed)).
  - destruct (readCanisterIds _ _ _ _) as [e|table].
    { intros H. injection H as <-. repeat split. right. auto. }
    change (console_log "Canister ids file" ;;; pret table)
      with ([ConsoleLog "Canister ids file"], inr table : Z + Obj json).
    intros H. apply exited_after in H as [H ->].
    apply resolution_exit in H as [-> [line ->]].
    repeat split. right. auto.
  - change (pret (canisterNameToId parsed))
      with ([] : list event, inr (canisterNameToId parsed) : Z + Obj json).
    intros H. apply exited_after in H as [H ->].
    apply resolution_exit in H as [-> [line ->]].
    repeat split. right. auto.
Qed.

(** X17. When [main] returns, at least one router has been started, and all
    the routers forward to one upstream host, which is not empty. *)
Theorem main_started process_argv apps :
  started (main readFileSync JSON_parse process_argv) = Some apps ->
  apps <> [] /\
  exists host, host <> "" /\
               forall app, In app apps -> app_replicaHost app = host.
Proof.
  unfold main.
  destruct (negb (indexOf "--help" (slice 2 process_argv) =? -1));
    [discriminate|].
  destruct (getConfig (slice 2 process_argv)) as [[message|parsed] final]
    eqn:Eparse; cbn [fst]; [discriminate|].
  destruct (List.length (ownKeys (canisterIdToPort parsed)) =? 0)%nat
    eqn:Eids; [discriminate|].
  destruct (truthyOptString (replicaHost parsed)) eqn:Ehost;
    [|discriminate]. cbn [negb].
  intros H.
  apply started_pbind in H as (t1 & table & apps1 & E1 & H & ->).
  apply started_pbind in H as (t2 & ids & apps2 & E2 & H & ->).
  apply started_pbind in H as (t3 & [] & apps3 & E3 & H & ->).
  apply started_pbind in H as (t4 & [] & apps4 & E4 & H & ->).
  rewrite startApps_apps in H. injection H as <-.
  injection E3 as <-. injection E4 as <-.
  assert (Hne : canisterIdToPort parsed <> []).
  { intros H. apply ownKeys_empty in H. congruence. }
  pose proof (resolveNames_grows _ _ _ _ _ E2 Hne) as Hne'.
  assert (Ht2 : appsOf t2 = []).
  { unfold getConfig in Eparse.
    destruct (parsed_fields _ _ _ Eparse) as (_ & _ & _ & Hnd & _).
    now destruct (resolveNames_result _ _ _ _ _ E2 Hnd). }
  assert (Ht1 : appsOf t1 = []).
  { destruct (truthyOptString (canisterIdsFile parsed)).
    - unfold pbind in E1. simpl in E1.
      destruct (readCanisterIds _ _ _ _); simpl in E1; [discriminate|].
      now injection E1 as <- _.
    - now injection E1 as <- _. }
  rewrite Ht1, Ht2. simpl. split.
  - apply forIn_nonempty in Hne'.
    destruct (forIn ids); [contradiction | discriminate].
  - destruct (replicaHost parsed) as [host|]; [|discriminate].
    exists host. split.
    + intros ->. discriminate.
    + intros app Hin. apply in_map_iff in Hin as [b [<- _]]. reflexivity.
Qed.

End Outcomes.

Lemma main_name_without_file_witness :
  main readIdsFile parseIdsText
    ["node"; "proxy"; "--replica-host"; "http://localhost:8000";
     "--by-id"; "abc:8080"; "--by-name"; "foo:9090"]
  = ([ConsoleLog ("No canister ID for canister name 'foo' when trying"
                  +++ " to proxy 'foo' to port 9090");
      ConsoleLog usage], inl 1).
Proof.
  apply (main_name_without_file readIdsFile parseIdsText
           ["node"; "proxy"; "--replica-host"; "http://localhost:8000";
            "--by-id"; "abc:8080"; "--by-name"; "foo:9090"]
           {| replicaHost := Some "http://localhost:8000";
              canisterIdToPort := [("abc", 8080)];
              canisterNameToPort := [("foo", 9090)];
              canisterNameToId := [];
              canisterIdsFile := None |} [] "foo" 9090 []);
    solve [reflexivity | discriminate | simpl; intuition discriminate].
Defined.

Lemma main_exit_witness :
  appsOf [ConsoleLog "No canisters to proxy"; ConsoleLog usage] = [] /\
  last [ConsoleLog "No canisters to proxy"; ConsoleLog usage]
    (ConsoleLog "") = ConsoleLog usage /\
  ((1 = 0 /\ In "--help" ["--replica-host"; "http://localhost:8000"]) \/
   (1 = 1 /\ ~ In "--help" ["--replica-host"; "http://localhost:8000"])).
Proof.
  exact (main_exit readIdsFile parseIdsText
           ["node"; "proxy"; "--replica-host"; "http://localhost:8000"]
           1 eq_refl).
Defined.

Lemma main_started_witness :
  [{| app_replicaHost := "http://localhost:8000";
      app_port := 8080; app_canisterId := "abc" |};
   {| app_replicaHost := "http://localhost:8000";
      app_port := 9090; app_canisterId := "xyz" |}] <> [] /\
  exists host,
    host <> "" /\
    forall app,
      In app [{| app_replicaHost := "http://localhost:8000";
                 app_port := 8080; app_canisterId := "abc" |};
              {| app_replicaHost := "http://localhost:8000";
                 app_port := 9090; app_canisterId := "xyz" |}] ->
      app_replicaHost app = host.
Proof.
  exact (main_started readIdsFile parseIdsText
           ["node"; "proxy"; "--replica-host"; "http://localhost:8000";
            "--by-id"; "abc:8080"; "--by-name"; "foo:9090";
            "--canister-ids-file"; "canister_ids.json"] _ eq_refl).
Defined.

Lemma main_help_witness :
  main readIdsFile parseIdsText
    ("node" :: "proxy" :: ["--by-id"; "oops"; "--help"])
  = ([ConsoleLog usage], inl 0)
  /\ exited (main readIdsFile parseIdsText
               ("node" :: "proxy" :: ["--by-id"; "oops"; "--help"]))
     = Some 0.
Proof.
  apply main_help. simpl. tauto.
Defined.

Lemma names_alone_rejected_witness :
  main readIdsFile parseIdsText
    ("node" :: "proxy" ::
     ["--replica-host"; "http://localhost:8000"; "--by-name"; "foo:9090";
      "--by-name"; "bar:7"; "--canister-ids-file"; "canister_ids.json"])
  = ([ConsoleLog "No canisters to proxy"; ConsoleLog usage], inl 1).
Proof.
  apply (names_alone_rejected readIdsFile parseIdsText "node" "proxy"
           ["--replica-host"; "http://localhost:8000";
            "--by-name"; "foo:9090"; "--by-name"; "bar:7";
            "--canister-ids-file"; "canister_ids.json"]
           {| replicaHost := Some "http://localhost:8000";
              canisterIdToPort := [];
              canisterNameToPort := [("foo", 9090); ("bar", 7)];
              canisterNameToId := [];
              canisterIdsFile := Some "canister_ids.json" |} []);
    reflexivity.
Defined.

Lemma parseArgs_unknown_only_witness :
  parseArgs ["abc:8080"; "--verbose"]
  = (inl (leftoverMessage ["abc:8080"; "--verbose"]),
     ["abc:8080"; "--verbose"]).
Proof.
  apply parseArgs_unknown_only;
    solve [discriminate | simpl; intuition discriminate].
Defined.

(** ** The lookup file *)

Section LookupFile.

Variable readFileSync : string -> exn + string.
Variable JSON_parse : string -> exn + json.

Lemma readCanisterIds_fold path table text values :
  readFileSync path = inr text ->
  JSON_parse text = inr values ->
  readCanisterIds readFileSync JSON_parse path table
  = fold_left (recordEntry values) (forInKeys values) (inr table).
Proof.
  intros Hr Hp. unfold readCanisterIds. now rewrite Hr, Hp.
Qed.

Lemma fold_error values keys e :
  fold_left (recordEntry values) keys (inl e) = inl e.
Proof. induction keys; simpl; auto. Qed.

Lemma fold_entries members keys : forall table,
  NoDup keys ->
  (forall k, In k keys -> exists v, get k (objectOf members) = Some v) ->
  (forall k, In k keys -> get k (objectOf members) <> Some JNull) ->
  exists table',
    fold_left (recordEntry (JObject members)) keys (inr table)
    = inr table' /\
    forall name,
      get name table'
      = if in_dec string_dec name keys
        then match localOf (get name (objectOf members)) with
             | Some id => Some id
             | None => get name table
             end
        else get name table.
Proof.
  induction keys as [|k keys IH]; intros table Hnd Hsome Hnull.
  - exists table. split; [reflexivity|]. intros name. reflexivity.
  - inversion Hnd as [|? ? Hk Hnd']; subst.
    destruct (Hsome k (or_introl eq_refl)) as [v Hv].
    assert (Hv' : v <> JNull).
    { intros ->. apply (Hnull k (or_introl eq_refl)). exact Hv. }
    assert (Hstep : exists t1,
               recordEntry (JObject members) (inr table) k = inr t1 /\
               forall name,
                 get name t1
                 = if String.eqb k name
                   then match localOf (Some v) with
                        | Some id => Some id
                        | None => get name table
                        end
                   else get name table).
    { unfold recordEntry. cbn [getMember]. rewrite Hv.
      destruct v as [|b|image|s|l|fields]; try congruence;
        try (exists table; split; [reflexivity|]; intros name;
             now destruct (String.eqb k name)).
      cbn [getLocal localOf].
      destruct (get "local" (objectOf fields)) as [id|];
        [|exists table; split; [reflexivity|]; intros name;
          now destruct (String.eqb k name)].
      destruct (truthy id).
      - exists (set k id table). split; [reflexivity|]. intros name.
        destruct (String.eqb_spec k name) as [<-|Hne].
        + apply get_set_same.
        + apply get_set_other. congruence.
      - exists table. split; [reflexivity|]. intros name.
        now destruct (String.eqb k name). }
    destruct Hstep as (t1 & E1 & Hget1).
    destruct (IH t1 Hnd') as (table' & E & Hget).
    { intros k' Hin. apply Hsome. now right. }
    { intros k' Hin. apply Hnull. now right. }
    exists table'. split; [cbn [fold_left]; now rewrite E1|].
    intros name. rewrite Hget, Hget1.
    destruct (in_dec string_dec name keys) as [Hin|Hout];
      destruct (in_dec string_dec name (k :: keys)) as [Hin'|Hout'].
    + destruct (String.eqb_spec k name) as [<-|Hne]; [contradiction|].
      reflexivity.
    + exfalso. apply Hout'. now right.
    + destruct Hin' as [<-|Hin']; [|contradiction].
      rewrite String.eqb_refl, Hv. reflexivity.
    + destruct (String.eqb_spec k name) as [<-|Hne];
        [exfalso; apply Hout'; now left | reflexivity].
Qed.

Lemma objectOf_NoDup members : NoDup (map fst (objectOf members)).
Proof.
  unfold objectOf.
  assert (H : forall o, NoDup (map fst o) ->
              NoDup (map fst (fold_left
                                (fun o kv => set (fst kv) (snd kv) o)
                                members o))).
  { induction members as [|kv members IH]; simpl; intros o Hnd; auto.
    apply IH. now apply set_NoDup. }
  apply H. constructor.
Qed.

Lemma ownKeys_In {V} (o : Obj V) k :
  In k (ownKeys o) <-> In k (map fst o).
Proof.
  split; apply Permutation_in;
    [apply ownKeys_perm | symmetry; apply ownKeys_perm].
Qed.

(** X12. When the text of the file is a JSON object that has no
    [__proto__] entry and none of whose entries is [null], reading it
    succeeds, and for every name that names no inherited member the
    table it gives holds the name exactly when its entry is an object
    with a truthy [local] member, and then with that member; every
    other entry is skipped. *)
Theorem readCanisterIds_table path text members :
  readFileSync path = inr text ->
  JSON_parse text = inr (JObject members) ->
  (forall name, get name (objectOf members) <> Some JNull) ->
  get "__proto__" (objectOf members) = None ->
  exists table,
    readCanisterIds readFileSync JSON_parse path [] = inr table /\
    forall name,
      plainKey name = true ->
      get name table = localOf (get name (objectOf members)).
Proof.
  intros Hr Hp Hnull _.
  rewrite (readCanisterIds_fold _ _ _ _ Hr Hp). cbn [forInKeys].
  destruct (fold_entries members (ownKeys (objectOf members)) [])
    as (table & E & Hget).
  - apply ownKeys_NoDup, objectOf_NoDup.
  - intros k Hin. apply get_key. now apply ownKeys_In.
  - intros k _. apply Hnull.
  - exists table. split; [exact E|]. intros name _. rewrite Hget.
    destruct (in_dec string_dec name (ownKeys (objectOf members)))
      as [Hin|Hout].
    + now destruct (localOf (get name (objectOf members))).
    + destruct (get name (objectOf members)) as [v|] eqn:Ev;
        [|reflexivity].
      exfalso. apply Hout, ownKeys_In. eapply get_Some_key; eauto.
Qed.

Lemma fold_null members keys : forall acc name,
  (forall k, In k keys -> exists v, get k (objectOf members) = Some v) ->
  In name keys ->
  get name (objectOf members) = Some JNull ->
  (forall e, acc = inl e -> e = nullError) ->
  fold_left (recordEntry (JObject members)) keys acc = inl nullError.
Proof.
  induction keys as [|k keys IH]; intros acc name Hsome Hin Hnull Hacc;
    [easy|].
  assert (Hstep : forall e, recordEntry (JObject members) acc k = inl e ->
                            e = nullError).
  { intros e. unfold recordEntry.
    destruct acc as [e0|table]; [intros H; injection H as <-; auto|].
    cbn [getMember].
    destruct (Hsome k (or_introl eq_refl)) as [v ->].
    destruct v as [|b|image|s|l|fields]; cbn [getLocal];
      try discriminate.
    - intros H. now injection H as <-.
    - destruct (get "local" (objectOf fields)) as [id|];
        [destruct (truthy id)|]; discriminate. }
  cbn [fold_left].
  destruct Hin as [->|Hin].
  - assert (E : recordEntry (JObject members) acc name = inl nullError).
    { unfold recordEntry.
      destruct acc as [e0|table]; [now rewrite (Hacc e0 eq_refl)|].
      cbn [getMember]. now rewrite Hnull. }
    rewrite E. apply fold_error.
  - apply (IH _ name); auto.
    intros k' Hk'. apply Hsome. now right.
Qed.

(** X13. An entry that is [null] makes the read fail: taking its [local]
    member throws, whatever the other entries are. *)
Theorem readCanisterIds_null_entry path text members name table :
  readFileSync path = inr text ->
  JSON_parse text = inr (JObject members) ->
  get name (objectOf members) = Some JNull ->
  readCanisterIds readFileSync JSON_parse path table = inl nullError.
Proof.
  intros Hr Hp Hnull.
  rewrite (readCanisterIds_fold _ _ _ _ Hr Hp). cbn [forInKeys].
  apply (fold_null members _ _ name).
  - intros k Hin. apply get_key. now apply ownKeys_In.
  - apply ownKeys_In. eapply get_Some_key; eauto.
  - exact Hnull.
  - discriminate.
Qed.

End LookupFile.

Lemma readCanisterIds_table_witness :
  exists table,
    readCanisterIds readIdsFile parseIdsText "canister_ids.json" []
    = inr table /\
    forall name,
      plainKey name = true ->
      get name table
      = localOf (get name (objectOf
                             [("foo", JObject [("local", JString "xyz")])])).
Proof.
  apply (readCanisterIds_table readIdsFile parseIdsText
           "canister_ids.json" idsText
           [("foo", JObject [("local", JString "xyz")])]);
    try reflexivity.
  intros name. cbn [objectOf fold_left set fst snd get].
  destruct (String.eqb "foo" name); discriminate.
Defined.

Lemma readCanisterIds_null_entry_witness :
  readCanisterIds (fun _ => inr "text")
    (fun _ => inr (JObject [("foo", JObject [("local", JString "xyz")]);
                            ("bar", JNull)]))
    "canister_ids.json" []
  = inl nullError.
Proof.
  apply (readCanisterIds_null_entry _ _ "canister_ids.json" "text"
           [("foo", JObject [("local", JString "xyz")]); ("bar", JNull)]
           "bar"); reflexivity.
Defined.

(** ** The rewritten target *)

Lemma countChar_app c a b :
  countChar c (a +++ b) = (countChar c a + countChar c b)%nat.
Proof.
  induction a as [|x a IH]; simpl; [reflexivity|]. rewrite IH. lia.
Qed.

Lemma split_pieces c s :
  forall piece, In piece (split c s) -> countChar c piece = 0%nat.
Proof.
  induction s as [|x s IH]; simpl.
  - intros piece [<-|[]]. reflexivity.
  - destruct (Ascii.eqb x c) eqn:E.
    + intros piece [<-|H]; [reflexivity | auto].
    + destruct (split c s) as [|h t].
      * intros piece [<-|[]]. simpl. now rewrite E.
      * intros piece [<-|H].
        -- simpl. rewrite E. apply IH. now left.
        -- apply IH. now right.
Qed.

Lemma split_nonempty c s : split c s <> [].
Proof.
  destruct s as [|x s]; simpl; [discriminate|].
  destruct (Ascii.eqb x c); [discriminate|].
  destruct (split c s); discriminate.
Qed.

(** X21. Whatever the target, the rewritten target holds exactly one ["?"]
    besides those of the identifier: the one that opens the query
    string. *)
Theorem pathRewrite_one_mark canisterId pathAndParams :
  countChar "?" (pathRewrite canisterId pathAndParams)
  = S (countChar "?" canisterId).
Proof.
  unfold pathRewrite.
  pose proof (split_pieces "?" pathAndParams) as Hpieces.
  pose proof (split_nonempty "?" pathAndParams) as Hne.
  destruct (split "?" pathAndParams) as [|path [|params rest]];
    [contradiction| |]; cbn [nth_error truthyOptString stringOf].
  - rewrite !countChar_app, (Hpieces path) by now left.
    reflexivity.
  - destruct (truthyString params).
    + rewrite !countChar_app, (Hpieces path) by now left.
      rewrite (Hpieces params) by (right; now left).
      reflexivity.
    + rewrite !countChar_app, (Hpieces path) by now left.
      reflexivity.
Qed.

(** The rewritten target always ends with the parameter that carries
    the identifier. *)
Lemma pathRewrite_suffix canisterId pathAndParams :
  exists before,
    pathRewrite canisterId pathAndParams
    = before +++ "canisterId=" +++ canisterId.
Proof.
  unfold pathRewrite.
  destruct (truthyOptString (nth_error (split "?" pathAndParams) 1)).
  - eexists. rewrite <- !append_assoc. reflexivity.
  - eexists. rewrite <- !append_assoc. reflexivity.
Qed.

Lemma pathRewrite_path_witness :
  pathRewrite "ryjl3-tyaaa" "/index.html"
  = "/index.html" +++ "?canisterId=" +++ "ryjl3-tyaaa".
Proof. apply pathRewrite_path. reflexivity. Defined.

Lemma pathRewrite_query_witness :
  pathRewrite "ryjl3-tyaaa" ("/foo" +++ "?" +++ "bar=1&baz=2")
  = "/foo" +++ "?" +++ "bar=1&baz=2" +++ "&canisterId=" +++ "ryjl3-tyaaa".
Proof.
  apply pathRewrite_query; solve [reflexivity | discriminate].
Defined.

Lemma pathRewrite_second_mark_witness :
  pathRewrite "ryjl3-tyaaa" ("/foo" +++ "?" +++ "next=/bar" +++ "?" +++ "x=1")
  = pathRewrite "ryjl3-tyaaa" ("/foo" +++ "?" +++ "next=/bar").
Proof. apply pathRewrite_second_mark; reflexivity. Defined.

(** ** The colours of the access log *)

(** X22. Statuses from 200 to 499 are coloured by their hundreds, each
    hundred with a colour of its own; every other status, below 200 or
    from 500 on, has one more colour, which none of those has. *)
Theorem color_classes a b :
  200 <= b < 500 ->
  (200 <= a < 500 -> (color a = color b <-> a / 100 = b / 100)) /\
  (~ 200 <= a < 500 -> color a = 35 /\ color a <> color b).
Proof.
  intros Hb. unfold color.
  assert (Hdiv : forall x, 200 <= x < 500 ->
             (200 <= x < 300 /\ x / 100 = 2) \/
             (300 <= x < 400 /\ x / 100 = 3) \/
             (400 <= x < 500 /\ x / 100 = 4)).
  { intros x Hx.
    assert (H := Z.div_mod x 100 ltac:(lia)).
    assert (H' := Z.mod_pos_bound x 100 ltac:(lia)). lia. }
  split.
  - intros Ha.
    destruct (Hdiv a Ha) as [[Ha' ->]|[[Ha' ->]|[Ha' ->]]];
      destruct (Hdiv b Hb) as [[Hb' ->]|[[Hb' ->]|[Hb' ->]]];
      repeat match goal with
        | |- context [?x <=? ?y] =>
            destruct (Z.leb_spec x y); try lia
        | |- context [?x <? ?y] =>
            destruct (Z.ltb_spec x y); try lia
        end; cbn [andb]; split; intros ?; lia.
  - intros Ha.
    destruct (Hdiv b Hb) as [[Hb' _]|[[Hb' _]|[Hb' _]]];
      repeat match goal with
        | |- context [?x <=? ?y] =>
            destruct (Z.leb_spec x y); try lia
        | |- context [?x <? ?y] =>
            destruct (Z.ltb_spec x y); try lia
        end; cbn [andb]; (split; [reflexivity | lia]).
Qed.

Lemma color_classes_witness :
  (200 <= 204 < 500 -> (color 204 = color 200 <-> 204 / 100 = 200 / 100)) /\
  (~ 200 <= 204 < 500 -> color 204 = 35 /\ color 204 <> color 200).
Proof. apply (color_classes 204 200). lia. Defined.

Example logLine_run :
  logLine "ryjl3-tyaaa" 4943 404 "GET" "/foo?bar=1"
    "/foo?bar=1&canisterId=ryjl3-tyaaa"
  = "ryjl3-tyaaa (4943) " +++ esc +++ "[33m404" +++ esc
    +++ "[0m GET /foo?bar=1 -> /foo?bar=1&canisterId=ryjl3-tyaaa ".
Proof. reflexivity. Qed.
